(** * Sequential file readers of file/sequence_file_reader.cc

    A shallow embedding of [SequentialFileReader] (the direct-I/O read
    adapter), of [ReadaheadSequentialFile] (the readahead cache decorator)
    and of [SequentialFileReader::NewReadaheadSequentialFile] (the factory),
    followed by the properties the specification states about them.

    Conventions.
    - [size_t] and [uint64_t] values are integers of [Z] in [0, 2^64); every
      addition and subtraction the source performs on them is written with
      [+w] and [-w], which reduce modulo [2^64].
    - A [Slice] is the list of the bytes it designates.  The wrapped file is
      taken to deliver its bytes in the scratch area it is handed, as the
      assertion of [ReadIntoBuffer] expects, and a call of the wrapped file
      that fails is taken to leave that area as it was.
    - The mutex of the decorator and the atomic cursor of the adapter are
      not modelled: every operation is a function from state to state. *)

From Stdlib Require Import ZArith List Lia Bool.
From Stdlib Require Strings.Byte.
Import ListNotations.
Local Open Scope Z_scope.

(** ** Machine integers, bytes, slices and statuses *)

Definition SIZE_MOD : Z := 2 ^ 64.

Definition wrap (x : Z) : Z := x mod SIZE_MOD.

Definition wadd (x y : Z) : Z := wrap (x + y).
Definition wsub (x y : Z) : Z := wrap (x - y).

Infix "+w" := wadd (at level 50, left associativity).
Infix "-w" := wsub (at level 50, left associativity).

Definition byte : Type := Init.Byte.byte.

Definition Slice : Type := list byte.

Definition Slice_size (s : Slice) : Z := Z.of_nat (length s).

(** [sub off len l] is the byte range [off, off + len) of [l]: what
    [memcpy(dest, l + off, len)] copies. *)
Definition sub (off len : Z) (l : list byte) : list byte :=
  firstn (Z.to_nat len) (skipn (Z.to_nat off) l).

Inductive Status : Type :=
| OK
| IOError (code : Z).

Definition ok (s : Status) : bool :=
  match s with
  | OK => true
  | IOError _ => false
  end.

(** ** util/aligned_buffer.h *)

(** Modelled from the spec: [TruncateToPageBoundary] of util/aligned_buffer.h
    is not under src/.  The spec calls it floor(offset, alignment): the
    largest multiple of the alignment that does not exceed the offset. *)
Definition TruncateToPageBoundary (page_size s : Z) : Z :=
  s - s mod page_size.

(** Modelled from the spec: [Roundup] of util/aligned_buffer.h is not under
    src/.  The spec calls it ceil(x, alignment), "rounded up to alignment":
    the least multiple of the alignment that is not below [x].  The spec
    states it on plain integers, and so it is here; the callers under src/
    reduce what they compute from it modulo [2^64]. *)
Definition Roundup (x y : Z) : Z :=
  ((x + y - 1) / y) * y.

(** Modelled from the spec: class [AlignedBuffer] of util/aligned_buffer.h is
    not under src/.  The spec gives it an alignment, a capacity that is a
    multiple of the alignment, a current valid size, and the operations
    allocate-to-capacity, set-valid-size, copy-out-range and clear (size
    reset to 0).  [bufstart] is the storage; [store] stands for a callee
    writing through the pointer [BufferStart()]. *)
Module AlignedBuffer.

Record t : Type := mk {
  alignment : Z;
  capacity : Z;
  cursize : Z;
  bufstart : list byte
}.

Definition empty : t := mk 0 0 0 [].

Definition Alignment (a : Z) (b : t) : t :=
  mk a (capacity b) (cursize b) (bufstart b).

Definition AllocateNewBuffer (requested_capacity : Z) (b : t) : t :=
  mk (alignment b) (Roundup requested_capacity (alignment b)) 0 [].

Definition Capacity (b : t) : Z := capacity b.

Definition CurrentSize (b : t) : Z := cursize b.

Definition BufferStart (b : t) : list byte := bufstart b.

Definition Size (n : Z) (b : t) : t :=
  mk (alignment b) (capacity b) n (bufstart b).

Definition Clear (b : t) : t :=
  mk (alignment b) (capacity b) 0 (bufstart b).

Definition store (bytes : list byte) (b : t) : t :=
  mk (alignment b) (capacity b) (cursize b) bytes.

(** copy-out-range: the bytes of the valid part from [offset] on, at most
    [read_size] of them. *)
Definition Read (offset read_size : Z) (b : t) : list byte :=
  if offset <? cursize b
  then sub offset (Z.min (cursize b - offset) read_size) (bufstart b)
  else [].

End AlignedBuffer.

(** ** The interface [SequentialFile]

    [file_Read n result f] is [f->Read(n, &result, scratch)]: it yields the
    status, the value of [*result] after the call (which on failure is
    whatever the file leaves there, given the value [result] it had before)
    and the file afterwards. *)
Class SequentialFile (F : Type) : Type := {
  file_Read : Z -> Slice -> F -> Status * Slice * F;
  file_Skip : Z -> F -> Status * F;
  file_PositionedRead : Z -> Z -> Slice -> F -> Status * Slice * F;
  file_InvalidateCache : Z -> Z -> F -> Status * F;
  GetRequiredBufferAlignment : F -> Z;
  file_use_direct_io : F -> bool
}.

(** ** SequentialFileReader: the direct-I/O read adapter *)
Module SequentialFileReader.
Section Adapter.
Context {F : Type} `{SequentialFile F}.

Record t : Type := mk {
  file_ : F;
  offset_ : Z
}.

Definition use_direct_io (r : t) : bool := file_use_direct_io (file_ r).

(** Lines 39-41 of [Read]: the aligned offset, the distance of the
    requested offset from it, and the aligned length. *)
Definition aligned_range (alignment offset n : Z) : Z * Z * Z :=
  let aligned_offset := TruncateToPageBoundary alignment offset in
  let offset_advance := offset -w aligned_offset in
  let size := Roundup (offset +w n) alignment -w aligned_offset in
  (aligned_offset, offset_advance, size).

Definition Read (n : Z) (result : Slice) (r : t) : Status * Slice * t :=
  if use_direct_io r then
    let offset := offset_ r in
    let alignment := GetRequiredBufferAlignment (file_ r) in
    let '(aligned_offset, offset_advance, size) :=
      aligned_range alignment offset n in
    let buf :=
      AlignedBuffer.AllocateNewBuffer size
        (AlignedBuffer.Alignment alignment AlignedBuffer.empty) in
    let '(s, tmp, f') :=
      file_PositionedRead aligned_offset size [] (file_ r) in
    let out :=
      if ok s && (offset_advance <? Slice_size tmp) then
        let buf :=
          AlignedBuffer.Size (Slice_size tmp)
            (AlignedBuffer.store tmp buf) in
        AlignedBuffer.Read offset_advance
          (Z.min (Slice_size tmp -w offset_advance) n) buf
      else [] in
    (s, out, mk f' (offset +w n))
  else
    let '(s, res, f') := file_Read n result (file_ r) in
    (s, res, mk f' (offset_ r)).

Definition Skip (n : Z) (r : t) : Status * t :=
  if use_direct_io r then (OK, mk (file_ r) (offset_ r +w n))
  else
    let '(s, f') := file_Skip n (file_ r) in
    (s, mk f' (offset_ r)).

End Adapter.
Arguments t F : clear implicits.
End SequentialFileReader.

(** ** ReadaheadSequentialFile: the readahead cache decorator *)

(** The calls a decorator operation makes on the wrapped file, tagged with
    the place they come from: [Fill n] is the [file_->Read] of
    [ReadIntoBuffer], [Bypass n] the [file_->Read] of the bypass branch of
    [Read], [FwdSkip n] the [file_->Skip] of [Skip]. *)
Inductive Call : Type :=
| Fill (n : Z)
| Bypass (n : Z)
| FwdSkip (n : Z).

Module ReadaheadSequentialFile.
Section Decorator.
Context {F : Type} `{SequentialFile F}.

Record t : Type := mk {
  file_ : F;
  alignment_ : Z;
  readahead_size_ : Z;
  buffer_ : AlignedBuffer.t;
  buffer_offset_ : Z;
  read_offset_ : Z
}.

Definition with_file (f : F) (st : t) : t :=
  mk f (alignment_ st) (readahead_size_ st) (buffer_ st)
     (buffer_offset_ st) (read_offset_ st).

Definition with_buffer (b : AlignedBuffer.t) (st : t) : t :=
  mk (file_ st) (alignment_ st) (readahead_size_ st) b
     (buffer_offset_ st) (read_offset_ st).

Definition with_buffer_offset (o : Z) (st : t) : t :=
  mk (file_ st) (alignment_ st) (readahead_size_ st) (buffer_ st)
     o (read_offset_ st).

Definition with_read_offset (o : Z) (st : t) : t :=
  mk (file_ st) (alignment_ st) (readahead_size_ st) (buffer_ st)
     (buffer_offset_ st) o.

(** The constructor.  [readahead_size_] is a [size_t]: it holds the
    rounded-up size modulo [2^64]. *)
Definition make (file : F) (readahead_size : Z) : t :=
  let alignment := GetRequiredBufferAlignment file in
  let readahead := wrap (Roundup readahead_size alignment) in
  mk file alignment readahead
     (AlignedBuffer.AllocateNewBuffer readahead
        (AlignedBuffer.Alignment alignment AlignedBuffer.empty))
     0 0.

(** Yields the [bool] returned, [*cached_len] and the bytes copied to
    [scratch]. *)
Definition TryReadFromCache (n : Z) (st : t) : bool * Z * list byte * t :=
  let cur := AlignedBuffer.CurrentSize (buffer_ st) in
  if (read_offset_ st <? buffer_offset_ st)
     || (buffer_offset_ st +w cur <=? read_offset_ st)
  then (false, 0, [], st)
  else
    let offset_in_buffer := read_offset_ st -w buffer_offset_ st in
    let cached_len := Z.min (cur -w offset_in_buffer) n in
    let copied :=
      sub offset_in_buffer cached_len
          (AlignedBuffer.BufferStart (buffer_ st)) in
    (true, cached_len, copied,
     with_read_offset (read_offset_ st +w cached_len) st).

Definition ReadIntoBuffer (n : Z) (st : t) : Status * list Call * t :=
  let n :=
    if AlignedBuffer.Capacity (buffer_ st) <? n
    then AlignedBuffer.Capacity (buffer_ st) else n in
  let '(s, result, f') := file_Read n [] (file_ st) in
  let st := with_file f' st in
  if ok s then
    (s, [Fill n],
     with_buffer
       (AlignedBuffer.Size (Slice_size result)
          (AlignedBuffer.store result (buffer_ st)))
       (with_buffer_offset (read_offset_ st) st))
  else (s, [Fill n], st).

(** [Read n result st]: the status, the value of [*result] after the call,
    the calls made on the wrapped file, and the state afterwards. *)
Definition Read (n : Z) (result : Slice) (st : t)
  : Status * Slice * list Call * t :=
  let '(hit, cached_len, cached, st) := TryReadFromCache n st in
  if hit && ((cached_len =? n)
             || (AlignedBuffer.CurrentSize (buffer_ st)
                 <? readahead_size_ st))
  then (OK, cached, [], st)
  else
    let n := n -w cached_len in
    if readahead_size_ st <=? n +w alignment_ st then
      let '(s, res, f') := file_Read n result (file_ st) in
      let st := with_file f' st in
      let '(result, st) :=
        if ok s
        then (cached ++ res,
              with_read_offset (read_offset_ st +w Slice_size res) st)
        else (res, st) in
      (s, result, [Bypass n],
       with_buffer (AlignedBuffer.Clear (buffer_ st)) st)
    else
      let '(s, calls, st) := ReadIntoBuffer (readahead_size_ st) st in
      if ok s then
        let '(_, remaining_len, rest, st) := TryReadFromCache n st in
        (s, cached ++ rest, calls, st)
      else (s, result, calls, st).

Definition Skip (n : Z) (st : t) : Status * list Call * t :=
  let cur := AlignedBuffer.CurrentSize (buffer_ st) in
  let '(n, st) :=
    if 0 <? cur then
      if buffer_offset_ st +w cur <=? read_offset_ st +w n then
        (n -w (buffer_offset_ st +w cur -w read_offset_ st),
         with_read_offset (buffer_offset_ st +w cur) st)
      else (0, with_read_offset (read_offset_ st +w n) st)
    else (n, st) in
  if 0 <? n then
    let '(s, f') := file_Skip n (file_ st) in
    let st := with_file f' st in
    let st :=
      if ok s then with_read_offset (read_offset_ st +w n) st else st in
    (s, [FwdSkip n], with_buffer (AlignedBuffer.Clear (buffer_ st)) st)
  else (OK, [], st).

Definition PositionedRead (offset n : Z) (result : Slice) (st : t)
  : Status * Slice * t :=
  let '(s, res, f') := file_PositionedRead offset n result (file_ st) in
  (s, res, with_file f' st).

Definition InvalidateCache (offset length : Z) (st : t) : Status * t :=
  let st := with_buffer (AlignedBuffer.Clear (buffer_ st)) st in
  let '(s, f') := file_InvalidateCache offset length (file_ st) in
  (s, with_file f' st).

Definition use_direct_io (st : t) : bool := file_use_direct_io (file_ st).

End Decorator.
Arguments t F : clear implicits.
End ReadaheadSequentialFile.

(** ** SequentialFileReader::NewReadaheadSequentialFile *)

(** What the factory hands back: the file it was given, or a decorator that
    owns it. *)
Inductive Handle (F : Type) : Type :=
| Original (file : F)
| Decorated (r : ReadaheadSequentialFile.t F).

Arguments Original {F} file.
Arguments Decorated {F} r.

Definition NewReadaheadSequentialFile {F : Type} `{SequentialFile F}
  (file : F) (readahead_size : Z) : Handle F :=
  if readahead_size <=? GetRequiredBufferAlignment file
  then Original file
  else Decorated (ReadaheadSequentialFile.make file readahead_size).

(** ** A raw sequential source held in memory

    Modelled from the spec: the raw file handle is an external collaborator
    that the repository does not implement under src/.  Its boundary (spec,
    section 6) is read, skip, positioned read, cache invalidation, the
    required alignment and the direct-I/O mode; a read delivers at most [n]
    bytes and fewer only at the end of the stream; a skip does not report
    how many bytes it skipped, which can be fewer than [n] at the end; an
    I/O failure is a status that is not OK.  [faults] scripts the outcome of
    the coming read, skip and positioned-read calls, one entry per call; the
    calls beyond the script succeed.  A failing call moves nothing and
    leaves [*result] as it was. *)
Module MemFile.

Record t : Type := mk {
  contents : list byte;
  position : Z;
  required_alignment : Z;
  direct_io : bool;
  faults : list Status
}.

Definition healthy (contents : list byte) (alignment : Z) (direct : bool)
  : t :=
  mk contents 0 alignment direct [].

Definition next_fault (f : t) : Status * t :=
  match faults f with
  | [] => (OK, f)
  | s :: rest =>
      (s, mk (contents f) (position f) (required_alignment f)
             (direct_io f) rest)
  end.

Definition remaining (f : t) : Z := Slice_size (contents f) - position f.

Definition move_to (p : Z) (f : t) : t :=
  mk (contents f) p (required_alignment f) (direct_io f) (faults f).

Definition Read (n : Z) (result : Slice) (f : t) : Status * Slice * t :=
  let '(s, f) := next_fault f in
  if ok s then
    let k := Z.max 0 (Z.min n (remaining f)) in
    (OK, sub (position f) k (contents f), move_to (position f + k) f)
  else (s, result, f).

Definition Skip (n : Z) (f : t) : Status * t :=
  let '(s, f) := next_fault f in
  if ok s then
    let k := Z.max 0 (Z.min n (remaining f)) in
    (OK, move_to (position f + k) f)
  else (s, f).

Definition PositionedRead (offset n : Z) (result : Slice) (f : t)
  : Status * Slice * t :=
  let '(s, f) := next_fault f in
  if ok s then
    let k := Z.max 0 (Z.min n (Slice_size (contents f) - offset)) in
    (OK, sub offset k (contents f), f)
  else (s, result, f).

Definition InvalidateCache (offset length : Z) (f : t) : Status * t :=
  (OK, f).

End MemFile.

#[export] Instance MemFile_SequentialFile : SequentialFile MemFile.t := {
  file_Read := MemFile.Read;
  file_Skip := MemFile.Skip;
  file_PositionedRead := MemFile.PositionedRead;
  file_InvalidateCache := MemFile.InvalidateCache;
  GetRequiredBufferAlignment := MemFile.required_alignment;
  file_use_direct_io := MemFile.direct_io
}.

(** A known pattern: byte [i] of the source is [i mod 251]. *)
Definition pattern_byte (i : nat) : byte :=
  match Strings.Byte.of_N (N.of_nat (i mod 251)) with
  | Some b => b
  | None => Init.Byte.x00
  end.

Definition pattern (len : nat) : list byte := map pattern_byte (seq 0 len).

(** The bytes [lo, hi) of a source. *)
Definition bytes_between (lo hi : Z) (l : list byte) : list byte :=
  sub lo (hi - lo) l.

(** An alignment is a power of two. *)
Definition is_power_of_two (a : Z) : Prop := exists k, 0 <= k /\ a = 2 ^ k.

(** ** Runs of the decorator *)

Module Run.
Import ReadaheadSequentialFile.
Section Runs.
Context {F : Type} `{SequentialFile F}.

(** The part of [Read] that follows the early return: [n] is the remaining
    need, [cached] the bytes already copied from the cache. *)
Definition Read_tail (n : Z) (cached : list byte) (result : Slice)
  (st : t F) : Status * Slice * list Call * t F :=
  if readahead_size_ st <=? n +w alignment_ st then
    let '(s, res, f') := file_Read n result (file_ st) in
    let st := with_file f' st in
    let '(result, st) :=
      if ok s
      then (cached ++ res,
            with_read_offset (read_offset_ st +w Slice_size res) st)
      else (res, st) in
    (s, result, [Bypass n],
     with_buffer (AlignedBuffer.Clear (buffer_ st)) st)
  else
    let '(s, calls, st) := ReadIntoBuffer (readahead_size_ st) st in
    if ok s then
      let '(_, remaining_len, rest, st) := TryReadFromCache n st in
      (s, cached ++ rest, calls, st)
    else (s, result, calls, st).

(** [read(n)] for each [n] of a list, in order, each with an empty
    [*result] on entry: the statuses and results, and the final state. *)
Fixpoint Read_all (ns : list Z) (st : t F) : list (Status * Slice) * t F :=
  match ns with
  | [] => ([], st)
  | n :: rest =>
      let '(s, res, _, st1) := Read n [] st in
      let '(outs, st2) := Read_all rest st1 in
      ((s, res) :: outs, st2)
  end.

(** The bytes a list of reads asks for. *)
Definition total (ns : list Z) : Z := fold_right Z.add 0 ns.

(** The states a decorator goes through from [init] under reads and skips
    of sizes that fit in 64 bits, as long as no skip takes [read_offset_]
    past [2^64 - 1]. *)
Inductive Reachable (init : t F) : t F -> Prop :=
| Reachable_init : Reachable init init
| Reachable_Read (n : Z) (result : Slice) (st : t F) :
    Reachable init st ->
    0 <= n < SIZE_MOD ->
    Reachable init (snd (Read n result st))
| Reachable_Skip (n : Z) (st : t F) :
    Reachable init st ->
    0 <= n -> read_offset_ st + n < SIZE_MOD ->
    Reachable init (snd (Skip n st)).

End Runs.

(** Over a source held in memory. *)

(** The offset in the source of the next byte a read delivers: the read
    offset while the buffer holds bytes, the position of the wrapped file
    otherwise. *)
Definition cursor (st : t MemFile.t) : Z :=
  if 0 <? AlignedBuffer.CurrentSize (buffer_ st)
  then read_offset_ st
  else MemFile.position (file_ st).

(** The bytes still to be delivered: those left in the buffer and those
    left in the wrapped file. *)
Definition cached_left (st : t MemFile.t) : Z :=
  let cur := AlignedBuffer.CurrentSize (buffer_ st) in
  if (buffer_offset_ st <=? read_offset_ st)
     && (read_offset_ st <? buffer_offset_ st + cur)
  then buffer_offset_ st + cur - read_offset_ st
  else 0.

Definition available (st : t MemFile.t) : Z :=
  cached_left st + MemFile.remaining (file_ st).

(** The invariant of the decorator over a source with contents [content]:
    the buffer holds the bytes of the source that end at the position of
    the wrapped file, the read offset lies in the buffered range, an empty
    buffer means the read offset is the position of the file unless the
    file is at its end, and a buffer shorter than [readahead_size_] means
    the file is at its end. *)
Record Inv (content : list byte) (st : t MemFile.t) : Prop := {
  inv_contents : MemFile.contents (file_ st) = content;
  inv_len : Slice_size content < SIZE_MOD;
  inv_pos : 0 <= MemFile.position (file_ st) <= Slice_size content;
  inv_ro : 0 <= read_offset_ st < SIZE_MOD;
  inv_bo : 0 <= buffer_offset_ st < SIZE_MOD;
  inv_cur : 0 <= AlignedBuffer.CurrentSize (buffer_ st);
  inv_buf :
    0 < AlignedBuffer.CurrentSize (buffer_ st) ->
    0 <= buffer_offset_ st /\
    buffer_offset_ st + AlignedBuffer.CurrentSize (buffer_ st)
      = MemFile.position (file_ st) /\
    buffer_offset_ st <= read_offset_ st <= MemFile.position (file_ st) /\
    AlignedBuffer.BufferStart (buffer_ st)
      = sub (buffer_offset_ st) (AlignedBuffer.CurrentSize (buffer_ st))
            content;
  inv_sync :
    AlignedBuffer.CurrentSize (buffer_ st) = 0 ->
    read_offset_ st = MemFile.position (file_ st)
    \/ MemFile.position (file_ st) = Slice_size content;
  inv_eof :
    0 < AlignedBuffer.CurrentSize (buffer_ st) < readahead_size_ st ->
    MemFile.position (file_ st) = Slice_size content;
  inv_align : 0 < alignment_ st;
  inv_cap : readahead_size_ st <= AlignedBuffer.Capacity (buffer_ st)
}.

End Run.

(** ** The debug assertion of [ReadIntoBuffer] *)

(** [IsFileSectorAligned], asserted by [ReadIntoBuffer] on the size it is
    about to request from the wrapped file. *)
Definition IsFileSectorAligned (off sector_size : Z) : bool :=
  off mod sector_size =? 0.

(** ** Runs of the wrapped file and of the adapter *)

(** [read(n)] on a file for each [n] of a list, in order, each with an
    empty [*result] on entry. *)
Fixpoint file_Read_all {F : Type} `{SequentialFile F}
  (ns : list Z) (f : F) : list (Status * Slice) * F :=
  match ns with
  | [] => ([], f)
  | n :: rest =>
      let '(s, res, f1) := file_Read n [] f in
      let '(outs, f2) := file_Read_all rest f1 in
      ((s, res) :: outs, f2)
  end.

Module DirectRun.

(** [read(n)] on the adapter for each [n] of a list, in order. *)
Fixpoint Read_all {F : Type} `{SequentialFile F}
  (ns : list Z) (r : SequentialFileReader.t F)
  : list (Status * Slice) * SequentialFileReader.t F :=
  match ns with
  | [] => ([], r)
  | n :: rest =>
      let '(s, res, r1) := SequentialFileReader.Read n [] r in
      let '(outs, r2) := Read_all rest r1 in
      ((s, res) :: outs, r2)
  end.

End DirectRun.

(** * Properties *)

(** ** Arithmetic modulo [2^64] *)

Ltac size_lia := unfold SIZE_MOD in *; lia.

Lemma SIZE_MOD_pos : 0 < SIZE_MOD.
Proof. reflexivity. Qed.

Lemma wrap_small (x : Z) : 0 <= x < SIZE_MOD -> wrap x = x.
Proof. intros Hx. unfold wrap. apply Z.mod_small. exact Hx. Qed.

Lemma wrap_range (x : Z) : 0 <= wrap x < SIZE_MOD.
Proof. unfold wrap. apply Z.mod_pos_bound. exact SIZE_MOD_pos. Qed.

Lemma wadd_small (x y : Z) : 0 <= x + y < SIZE_MOD -> x +w y = x + y.
Proof. intros Hxy. unfold wadd. now apply wrap_small. Qed.

Lemma wsub_small (x y : Z) : 0 <= x - y < SIZE_MOD -> x -w y = x - y.
Proof. intros Hxy. unfold wsub. now apply wrap_small. Qed.

Lemma wadd_0_r (x : Z) : 0 <= x < SIZE_MOD -> x +w 0 = x.
Proof. intros Hx. rewrite wadd_small; lia. Qed.

(** ** Byte ranges *)

Lemma Slice_size_nonneg (l : Slice) : 0 <= Slice_size l.
Proof. unfold Slice_size. lia. Qed.

Lemma Slice_size_app (l1 l2 : Slice) :
  Slice_size (l1 ++ l2) = Slice_size l1 + Slice_size l2.
Proof. unfold Slice_size. rewrite length_app. lia. Qed.

Lemma sub_nil (off len : Z) (l : list byte) : len <= 0 -> sub off len l = [].
Proof.
  intros Hlen. unfold sub.
  replace (Z.to_nat len) with 0%nat by lia. reflexivity.
Qed.

Lemma Slice_size_sub (off len : Z) (l : list byte) :
  0 <= off -> 0 <= len -> off + len <= Slice_size l ->
  Slice_size (sub off len l) = len.
Proof.
  unfold Slice_size, sub. intros Hoff Hlen Hfit.
  rewrite length_firstn, length_skipn. lia.
Qed.

Lemma sub_app (off k m : Z) (l : list byte) :
  0 <= off -> 0 <= k -> 0 <= m ->
  sub off k l ++ sub (off + k) m l = sub off (k + m) l.
Proof.
  intros Hoff Hk Hm. unfold sub.
  replace (Z.to_nat (off + k)) with (Z.to_nat k + Z.to_nat off)%nat by lia.
  replace (Z.to_nat (k + m)) with (Z.to_nat k + Z.to_nat m)%nat by lia.
  rewrite <- skipn_skipn.
  generalize (skipn (Z.to_nat off) l) as t.
  generalize (Z.to_nat m) as j.
  induction (Z.to_nat k) as [|i IH]; intros j t.
  - reflexivity.
  - destruct t as [|b t].
    + simpl. now rewrite firstn_nil.
    + simpl. f_equal. apply IH.
Qed.

Lemma sub_sub (a k b c : Z) (l : list byte) :
  0 <= a -> 0 <= b -> 0 <= k -> a + k <= c ->
  sub a k (sub b c l) = sub (b + a) k l.
Proof.
  intros Ha Hb Hk Hfit. unfold sub.
  rewrite skipn_firstn_comm, firstn_firstn, skipn_skipn.
  replace (Nat.min (Z.to_nat k) (Z.to_nat c - Z.to_nat a))
    with (Z.to_nat k) by lia.
  replace (Z.to_nat a + Z.to_nat b)%nat with (Z.to_nat (b + a)) by lia.
  reflexivity.
Qed.

Lemma skipn_sub (k off len : Z) (l : list byte) :
  0 <= k -> 0 <= off ->
  skipn (Z.to_nat k) (sub off len l) = sub (off + k) (len - k) l.
Proof.
  intros Hk Hoff. unfold sub.
  rewrite skipn_firstn_comm, skipn_skipn.
  replace (Z.to_nat k + Z.to_nat off)%nat with (Z.to_nat (off + k)) by lia.
  replace (Z.to_nat len - Z.to_nat k)%nat with (Z.to_nat (len - k)) by lia.
  reflexivity.
Qed.

Lemma sub_all (l : list byte) : sub 0 (Slice_size l) l = l.
Proof.
  unfold sub, Slice_size. simpl. rewrite Nat2Z.id. apply firstn_all.
Qed.

(** ** Rounding to the alignment *)

Lemma TruncateToPageBoundary_divide (a s : Z) :
  (a | TruncateToPageBoundary a s).
Proof.
  unfold TruncateToPageBoundary. exists (s / a).
  destruct (Z.eq_dec a 0) as [->|Ha].
  - rewrite Z.mod_0_r. lia.
  - pose proof (Z.div_mod s a Ha). lia.
Qed.

Lemma TruncateToPageBoundary_bounds (a s : Z) :
  0 < a ->
  TruncateToPageBoundary a s <= s < TruncateToPageBoundary a s + a.
Proof.
  intros Ha. unfold TruncateToPageBoundary.
  pose proof (Z.mod_pos_bound s a Ha). lia.
Qed.

Lemma Roundup_divide (x y : Z) : (y | Roundup x y).
Proof. unfold Roundup. now exists ((x + y - 1) / y). Qed.

Lemma Roundup_bounds (x y : Z) : 0 < y -> x <= Roundup x y < x + y.
Proof.
  intros Hy. unfold Roundup.
  pose proof (Z.div_mod (x + y - 1) y ltac:(lia)).
  pose proof (Z.mod_pos_bound (x + y - 1) y Hy). lia.
Qed.

Lemma Roundup_least (x y m : Z) :
  0 < y -> (y | m) -> x <= m -> Roundup x y <= m.
Proof.
  intros Hy [q ->] Hx.
  destruct (Roundup_divide x y) as [p Hp].
  pose proof (Roundup_bounds x y Hy) as Hb. rewrite Hp in *.
  assert (p <= q) by nia. nia.
Qed.

Lemma Roundup_multiple (x y : Z) : 0 < y -> (y | x) -> Roundup x y = x.
Proof.
  intros Hy Hdiv.
  pose proof (Roundup_bounds x y Hy).
  pose proof (Roundup_least x y x Hy Hdiv ltac:(lia)). lia.
Qed.

Lemma power_of_two_pos (a : Z) : is_power_of_two a -> 0 < a.
Proof. intros [k [Hk ->]]. now apply Z.pow_pos_nonneg. Qed.

(** ** The aligned range of the direct-I/O adapter *)

(** C3, as the claim states it, fails when the aligned length does not
    fit in [size_t]: for offset 1, length [2^64 - 1] and alignment 512 the
    sum [offset + n] wraps to 0, the computed range is empty and does not
    even hold the first requested byte. *)
Lemma aligned_range_wraps :
  is_power_of_two 512 /\
  SequentialFileReader.aligned_range 512 1 (2 ^ 64 - 1) = (0, 1, 0) /\
  ~ (1 < 0 + 0).
Proof.
  split; [exists 9; split; [lia | reflexivity] |].
  split; [vm_compute; reflexivity | lia].
Qed.

(** C3 (amended): for a power-of-two alignment and every offset and length
    whose end [offset + n], rounded up to the alignment, stays below [2^64],
    the aligned range [aligned_offset, aligned_offset + size) contains
    [offset, offset + n), both its start and its length are multiples of the
    alignment, and [offset_advance] is the distance between the offsets. *)
Theorem aligned_range_covers (alignment offset n : Z) :
  is_power_of_two alignment ->
  0 <= offset -> 0 <= n ->
  Roundup (offset + n) alignment < SIZE_MOD ->
  let '(aligned_offset, offset_advance, size) :=
    SequentialFileReader.aligned_range alignment offset n in
  aligned_offset <= offset /\
  offset + n <= aligned_offset + size /\
  (alignment | aligned_offset) /\
  (alignment | size) /\
  offset_advance = offset - aligned_offset.
Proof.
  intros Hpow Hoff Hn Hfit.
  pose proof (power_of_two_pos _ Hpow) as Ha.
  unfold SequentialFileReader.aligned_range.
  pose proof (TruncateToPageBoundary_bounds alignment offset Ha) as Ht.
  pose proof (TruncateToPageBoundary_divide alignment offset) as Hdt.
  pose proof (Roundup_bounds (offset + n) alignment Ha) as Hr.
  pose proof (Roundup_divide (offset + n) alignment) as Hdr.
  assert (0 <= TruncateToPageBoundary alignment offset) as Ht0.
  { unfold TruncateToPageBoundary.
    pose proof (Z.mod_le offset alignment Hoff Ha). lia. }
  rewrite (wadd_small offset n) by lia.
  rewrite !wsub_small by lia.
  repeat split; try lia; try assumption.
  now apply Z.divide_sub_r.
Qed.

Lemma aligned_range_covers_witness :
  let '(aligned_offset, offset_advance, size) :=
    SequentialFileReader.aligned_range 512 1000 100 in
  aligned_offset <= 1000 /\
  1000 + 100 <= aligned_offset + size /\
  (512 | aligned_offset) /\
  (512 | size) /\
  offset_advance = 1000 - aligned_offset.
Proof.
  apply (aligned_range_covers 512 1000 100).
  - exists 9. split; [lia | reflexivity].
  - lia.
  - lia.
  - vm_compute. reflexivity.
Defined.

(** ** The factory *)

(** C8, as the claim states it, fails when the requested size rounded up
    to the alignment does not fit in [size_t]: for a file of alignment 512
    and a request of [2^64 - 1] the factory builds a decorator whose
    [readahead_size_] is 0, which is below the request. *)
Lemma factory_stores_wrapped_size :
  let file := MemFile.healthy (pattern 16) 512 false in
  exists r,
    NewReadaheadSequentialFile file (2 ^ 64 - 1) = Decorated r /\
    Roundup (2 ^ 64 - 1) 512 = 2 ^ 64 /\
    ReadaheadSequentialFile.readahead_size_ r = 0 /\
    ~ 2 ^ 64 - 1 <= ReadaheadSequentialFile.readahead_size_ r.
Proof.
  eexists. split; [vm_compute; reflexivity |].
  vm_compute. repeat split. intros Hle. apply Hle. reflexivity.
Qed.

(** C8 (amended): when the alignment the file requires is at least the
    requested readahead size the factory hands back the file itself;
    otherwise it hands back a decorator that owns the file, starts with an
    empty buffer at offset 0, and stores as [readahead_size_] the requested
    size rounded up to the alignment, reduced modulo [2^64]: whenever the
    rounded-up size is below [2^64], a multiple of the alignment, not below
    the request and less than one alignment above. *)
Theorem factory_decides_by_alignment
  {F : Type} `{SequentialFile F} (file : F) (readahead_size : Z) :
  0 < GetRequiredBufferAlignment file ->
  let alignment := GetRequiredBufferAlignment file in
  (readahead_size <= alignment ->
   NewReadaheadSequentialFile file readahead_size = Original file) /\
  (alignment < readahead_size ->
   exists r,
     NewReadaheadSequentialFile file readahead_size = Decorated r /\
     ReadaheadSequentialFile.file_ r = file /\
     ReadaheadSequentialFile.alignment_ r = alignment /\
     ReadaheadSequentialFile.readahead_size_ r
       = wrap (Roundup readahead_size alignment) /\
     (Roundup readahead_size alignment < SIZE_MOD ->
      ReadaheadSequentialFile.readahead_size_ r
        = Roundup readahead_size alignment /\
      (alignment | ReadaheadSequentialFile.readahead_size_ r) /\
      readahead_size <= ReadaheadSequentialFile.readahead_size_ r
        < readahead_size + alignment) /\
     AlignedBuffer.CurrentSize (ReadaheadSequentialFile.buffer_ r) = 0 /\
     ReadaheadSequentialFile.buffer_offset_ r = 0 /\
     ReadaheadSequentialFile.read_offset_ r = 0).
Proof.
  intros Ha alignment. unfold NewReadaheadSequentialFile. split.
  - intros Hle. fold alignment.
    destruct (Z.leb_spec readahead_size alignment); [reflexivity | lia].
  - intros Hlt. fold alignment.
    destruct (Z.leb_spec readahead_size alignment); [lia |].
    eexists. split; [reflexivity |].
    cbn. fold alignment.
    pose proof (Roundup_bounds readahead_size alignment Ha) as Hr.
    assert (Roundup readahead_size alignment < SIZE_MOD ->
            wrap (Roundup readahead_size alignment)
            = Roundup readahead_size alignment) as Hw
      by (intros Hfit; apply wrap_small; lia).
    repeat split; rewrite Hw by assumption;
      [reflexivity | apply Roundup_divide | lia | lia].
Qed.

Lemma factory_decides_by_alignment_witness :
  let file := MemFile.healthy (pattern 16) 512 false in
  (1000 <= 512 -> NewReadaheadSequentialFile file 1000 = Original file) /\
  (512 < 1000 ->
   exists r,
     NewReadaheadSequentialFile file 1000 = Decorated r /\
     ReadaheadSequentialFile.file_ r = file /\
     ReadaheadSequentialFile.alignment_ r = 512 /\
     ReadaheadSequentialFile.readahead_size_ r = wrap (Roundup 1000 512) /\
     (Roundup 1000 512 < SIZE_MOD ->
      ReadaheadSequentialFile.readahead_size_ r = Roundup 1000 512 /\
      (512 | ReadaheadSequentialFile.readahead_size_ r) /\
      1000 <= ReadaheadSequentialFile.readahead_size_ r < 1000 + 512) /\
     AlignedBuffer.CurrentSize (ReadaheadSequentialFile.buffer_ r) = 0 /\
     ReadaheadSequentialFile.buffer_offset_ r = 0 /\
     ReadaheadSequentialFile.read_offset_ r = 0).
Proof.
  exact (factory_decides_by_alignment
           (MemFile.healthy (pattern 16) 512 false) 1000 eq_refl).
Defined.

(** ** The result of a direct-I/O read *)

(** C9: with direct I/O active, when the positioned read of the aligned
    range succeeds and returns [tmp], the read succeeds too; if [tmp] holds
    at least [offset_advance] bytes the result is the
    [min (size tmp - offset_advance) n] bytes of [tmp] that start at
    [offset_advance], and exactly that many; otherwise it is empty. *)
Theorem direct_io_read_result
  {F : Type} `{SequentialFile F}
  (r : SequentialFileReader.t F) (n : Z) (result tmp : Slice) (f' : F) :
  SequentialFileReader.use_direct_io r = true ->
  0 <= n ->
  Slice_size tmp < SIZE_MOD ->
  let '(aligned_offset, offset_advance, size) :=
    SequentialFileReader.aligned_range
      (GetRequiredBufferAlignment (SequentialFileReader.file_ r))
      (SequentialFileReader.offset_ r) n in
  file_PositionedRead aligned_offset size [] (SequentialFileReader.file_ r)
    = (OK, tmp, f') ->
  let '(s, out, _) := SequentialFileReader.Read n result r in
  s = OK /\
  (offset_advance <= Slice_size tmp ->
   out = sub offset_advance
             (Z.min (Slice_size tmp - offset_advance) n) tmp /\
   Slice_size out = Z.min (Slice_size tmp - offset_advance) n) /\
  (Slice_size tmp < offset_advance -> out = []).
Proof.
  intros Hdirect Hn Htmp.
  unfold SequentialFileReader.Read. rewrite Hdirect.
  destruct (SequentialFileReader.aligned_range _ _ n)
    as [[aligned_offset offset_advance] size] eqn:Hrange.
  intros Hread. rewrite Hread. cbn [ok andb].
  assert (0 <= offset_advance) as Hadv.
  { unfold SequentialFileReader.aligned_range in Hrange.
    injection Hrange as _ <- _. apply wrap_range. }
  pose proof (Slice_size_nonneg tmp) as Hpos.
  split; [reflexivity |].
  destruct (Z.ltb_spec offset_advance (Slice_size tmp)) as [Hlt | Hge].
  - rewrite wsub_small by lia.
    unfold AlignedBuffer.Read, AlignedBuffer.Size, AlignedBuffer.store.
    cbn [AlignedBuffer.cursize AlignedBuffer.bufstart].
    destruct (Z.ltb_spec offset_advance (Slice_size tmp)); [| lia].
    replace (Z.min (Slice_size tmp - offset_advance)
                   (Z.min (Slice_size tmp - offset_advance) n))
      with (Z.min (Slice_size tmp - offset_advance) n) by lia.
    split; [| lia]. intros _. split; [reflexivity |].
    apply Slice_size_sub; lia.
  - split; [| reflexivity].
    intros Hle. rewrite sub_nil by lia. split; [reflexivity |].
    change (Slice_size []) with 0. lia.
Qed.

Lemma direct_io_read_result_witness :
  let r :=
    SequentialFileReader.mk (MemFile.healthy (pattern 2000) 512 true) 1000 in
  let tmp := bytes_between 512 1536 (pattern 2000) in
  let '(s, out, _) := SequentialFileReader.Read 100 [] r in
  s = OK /\
  (488 <= Slice_size tmp ->
   out = sub 488 (Z.min (Slice_size tmp - 488) 100) tmp /\
   Slice_size out = Z.min (Slice_size tmp - 488) 100) /\
  (Slice_size tmp < 488 -> out = []).
Proof.
  intros r tmp.
  assert (0 <= 100) as Hn by lia.
  assert (Slice_size tmp < SIZE_MOD) as Htmp by (vm_compute; reflexivity).
  exact (direct_io_read_result r 100 [] tmp (SequentialFileReader.file_ r)
           eq_refl Hn Htmp eq_refl).
Defined.

(** ** The decorator over any wrapped file *)

Section AnyFile.
Context {F : Type} `{SequentialFile F}.
Import ReadaheadSequentialFile.

Lemma TryReadFromCache_keeps (n : Z) (st : t F) :
  let '(_, _, _, st1) := TryReadFromCache n st in
  file_ st1 = file_ st /\ buffer_ st1 = buffer_ st /\
  buffer_offset_ st1 = buffer_offset_ st /\
  alignment_ st1 = alignment_ st /\
  readahead_size_ st1 = readahead_size_ st.
Proof.
  unfold TryReadFromCache.
  destruct (_ || _); cbn; repeat split; reflexivity.
Qed.

Lemma TryReadFromCache_miss (n : Z) (st : t F) :
  read_offset_ st < buffer_offset_ st
  \/ buffer_offset_ st +w AlignedBuffer.CurrentSize (buffer_ st)
     <= read_offset_ st ->
  TryReadFromCache n st = (false, 0, [], st).
Proof.
  intros Hmiss. unfold TryReadFromCache.
  destruct (Z.ltb_spec (read_offset_ st) (buffer_offset_ st));
    [reflexivity |].
  destruct (Z.leb_spec
              (buffer_offset_ st +w AlignedBuffer.CurrentSize (buffer_ st))
              (read_offset_ st)); [reflexivity | lia].
Qed.

Lemma TryReadFromCache_hit (n : Z) (st : t F) :
  let cur := AlignedBuffer.CurrentSize (buffer_ st) in
  let left := buffer_offset_ st + cur - read_offset_ st in
  0 <= buffer_offset_ st <= read_offset_ st ->
  read_offset_ st < buffer_offset_ st + cur ->
  buffer_offset_ st + cur < SIZE_MOD ->
  0 <= n ->
  TryReadFromCache n st
  = (true, Z.min left n,
     sub (read_offset_ st - buffer_offset_ st) (Z.min left n)
         (AlignedBuffer.BufferStart (buffer_ st)),
     with_read_offset (read_offset_ st + Z.min left n) st).
Proof.
  intros cur left Hlo Hhi Hfit Hn. unfold TryReadFromCache. fold cur.
  rewrite (wadd_small (buffer_offset_ st) cur) by lia.
  destruct (Z.ltb_spec (read_offset_ st) (buffer_offset_ st)); [lia |].
  destruct (Z.leb_spec (buffer_offset_ st + cur) (read_offset_ st));
    [lia |].
  cbn [orb].
  rewrite (wsub_small (read_offset_ st)) by lia.
  rewrite (wsub_small cur) by lia.
  replace (cur - (read_offset_ st - buffer_offset_ st)) with left
    by (unfold left; lia).
  rewrite wadd_small by (unfold left; lia).
  reflexivity.
Qed.

(** C10: a read that takes the bypass branch and a skip that forwards a
    residue to the wrapped file both leave the buffer with current size 0,
    whatever status the wrapped file returns.  A read that does not return
    from the cache and whose remaining need plus one alignment reaches
    [readahead_size_] makes the bypass call, returns its status, and ends
    with the buffer empty; a skip with a residue beyond the buffered range
    forwards it, returns the status of that call, and ends with the buffer
    empty.  And in any read or skip that made such a call the buffer ends
    empty. *)
Theorem fall_through_clears_buffer (n : Z) (result : Slice) (st : t F) :
  (let '(hit, cached_len, _, _) := TryReadFromCache n st in
   let m := n -w cached_len in
   hit && ((cached_len =? n)
           || (AlignedBuffer.CurrentSize (buffer_ st)
               <? readahead_size_ st)) = false ->
   readahead_size_ st <= m +w alignment_ st ->
   let '(s0, _, f') := file_Read m result (file_ st) in
   let '(s, _, calls, st') := Read n result st in
   s = s0 /\ calls = [Bypass m] /\ file_ st' = f' /\
   AlignedBuffer.CurrentSize (buffer_ st') = 0) /\
  (let cur := AlignedBuffer.CurrentSize (buffer_ st) in
   let m :=
     if 0 <? cur then
       if buffer_offset_ st +w cur <=? read_offset_ st +w n
       then n -w (buffer_offset_ st +w cur -w read_offset_ st)
       else 0
     else n in
   0 < m ->
   let '(s0, f') := file_Skip m (file_ st) in
   let '(s, calls, st') := Skip n st in
   s = s0 /\ calls = [FwdSkip m] /\ file_ st' = f' /\
   AlignedBuffer.CurrentSize (buffer_ st') = 0) /\
  (forall s res calls st' m,
     Read n result st = (s, res, calls, st') ->
     In (Bypass m) calls ->
     AlignedBuffer.CurrentSize (buffer_ st') = 0) /\
  (forall s calls st' m,
     Skip n st = (s, calls, st') ->
     In (FwdSkip m) calls ->
     AlignedBuffer.CurrentSize (buffer_ st') = 0).
Proof.
  split; [| split; [| split]].
  - unfold Read.
    pose proof (TryReadFromCache_keeps n st) as Hkeep.
    destruct (TryReadFromCache n st) as [[[hit cached_len] cached] st1].
    destruct Hkeep as (Hfile & Hbuf & _ & Hal & Hra).
    rewrite Hbuf, Hra, Hal, Hfile.
    intros Hgo Hlarge. rewrite Hgo.
    destruct (Z.leb_spec (readahead_size_ st)
                (n -w cached_len +w alignment_ st)); [| lia].
    destruct (file_Read _ result (file_ st)) as [[s0 res0] f0].
    destruct (ok s0); cbn; repeat split.
  - unfold Skip.
    destruct (0 <? AlignedBuffer.CurrentSize (buffer_ st));
      [destruct (_ <=? _) |]; cbv beta iota zeta; intros Hm;
      try lia; apply Z.ltb_lt in Hm; rewrite Hm; cbn [file_ with_read_offset];
      destruct (file_Skip _ (file_ st)) as [s0 f0]; destruct (ok s0);
      cbn; repeat split.
  - intros s res calls st' m. unfold Read, ReadIntoBuffer.
    destruct (TryReadFromCache n st) as [[[hit cached_len] cached] st1].
    destruct (hit && _).
    + intros [= <- <- <- <-] [].
    + destruct (readahead_size_ st1 <=? _).
      * destruct (file_Read _ result (file_ st1)) as [[s0 res0] f0].
        destruct (ok s0); intros [= <- <- <- <-] _; reflexivity.
      * destruct (file_Read _ [] (file_ st1)) as [[s0 res0] f0].
        destruct (ok s0) eqn:Hok; cbv beta iota zeta; rewrite Hok.
        -- destruct (TryReadFromCache _ _) as [[[hit2 len2] rest] st2].
           intros [= <- <- <- <-] [Hin | []]. discriminate Hin.
        -- intros [= <- <- <- <-] [Hin | []]. discriminate Hin.
  - intros s calls st' m. unfold Skip.
    destruct (if 0 <? AlignedBuffer.CurrentSize (buffer_ st) then _ else _)
      as [n1 st1].
    destruct (0 <? n1).
    + destruct (file_Skip n1 (file_ st1)) as [s0 f0].
      destruct (ok s0); intros [= <- <- <-] _; reflexivity.
    + intros [= <- <- <-] [].
Qed.

(** C5 (amended): a read of the decorator whose call on the wrapped file
    fails returns the status of that call.  The decorator puts none of the
    cached bytes in the result: after a failed bypass read the result is
    what the wrapped file left there, after a failed fill it is what the
    caller passed in.  The call is not undone: the state is the one left by
    the copy from the cache ([read_offset_] advanced by the cached bytes
    copied), with the file as the failed call left it, and after a failed
    bypass read the buffer is cleared. *)
Theorem read_failure_outcome (n : Z) (result : Slice) (st : t F) :
  let '(hit, cached_len, _, st1) := TryReadFromCache n st in
  let m := n -w cached_len in
  let fill :=
    if AlignedBuffer.Capacity (buffer_ st) <? readahead_size_ st
    then AlignedBuffer.Capacity (buffer_ st)
    else readahead_size_ st in
  hit && ((cached_len =? n)
          || (AlignedBuffer.CurrentSize (buffer_ st)
              <? readahead_size_ st)) = false ->
  (readahead_size_ st <= m +w alignment_ st ->
   forall s res f',
     file_Read m result (file_ st) = (s, res, f') ->
     ok s = false ->
     Read n result st
     = (s, res, [Bypass m],
        with_buffer (AlignedBuffer.Clear (buffer_ st)) (with_file f' st1)))
  /\
  (m +w alignment_ st < readahead_size_ st ->
   forall s r0 f',
     file_Read fill [] (file_ st) = (s, r0, f') ->
     ok s = false ->
     Read n result st = (s, result, [Fill fill], with_file f' st1))
  /\
  read_offset_ st1
  = (if hit then read_offset_ st +w cached_len else read_offset_ st).
Proof.
  unfold Read, ReadIntoBuffer.
  pose proof (TryReadFromCache_keeps n st) as Hkeep.
  assert (let '(hit, cached_len, _, st1) := TryReadFromCache n st in
          read_offset_ st1
          = (if hit then read_offset_ st +w cached_len
             else read_offset_ st)) as Hro.
  { unfold TryReadFromCache. destruct (_ || _); reflexivity. }
  destruct (TryReadFromCache n st) as [[[hit cached_len] cached] st1].
  destruct Hkeep as (Hfile & Hbuf & _ & Hal & Hra).
  rewrite Hbuf, Hra, Hal, Hfile.
  intros Hgo. rewrite Hgo.
  split; [| split; [| exact Hro]].
  - intros Hlarge s res f' Hcall Hs.
    destruct (Z.leb_spec (readahead_size_ st)
                (n -w cached_len +w alignment_ st)); [| lia].
    rewrite Hcall, Hs. cbn. rewrite Hbuf. reflexivity.
  - intros Hsmall s r0 f' Hcall Hs.
    destruct (Z.leb_spec (readahead_size_ st)
                (n -w cached_len +w alignment_ st)); [lia |].
    rewrite Hcall, Hs. cbv beta iota zeta. rewrite Hs. reflexivity.
Qed.

(** C4 (amended): in a state whose buffer is shorter than
    [readahead_size_], which is what a fill that returned fewer bytes
    leaves, a read that begins inside the buffered range makes no call on
    the wrapped file, returns OK with the [min (cached bytes left) n] bytes
    of the buffer at the cursor, and changes nothing but [read_offset_],
    which advances by that number.  The same then holds for the next read
    as long as it begins inside the buffered range. *)
Theorem eof_short_circuit (n : Z) (result : Slice) (st : t F) :
  let cur := AlignedBuffer.CurrentSize (buffer_ st) in
  let left := buffer_offset_ st + cur - read_offset_ st in
  cur < readahead_size_ st ->
  0 <= buffer_offset_ st <= read_offset_ st ->
  read_offset_ st < buffer_offset_ st + cur ->
  buffer_offset_ st + cur < SIZE_MOD ->
  0 <= n ->
  Read n result st
  = (OK,
     sub (read_offset_ st - buffer_offset_ st) (Z.min left n)
         (AlignedBuffer.BufferStart (buffer_ st)),
     [],
     with_read_offset (read_offset_ st + Z.min left n) st).
Proof.
  intros cur left Hshort Hlo Hhi Hfit Hn. unfold Read.
  rewrite TryReadFromCache_hit by assumption.
  fold cur. fold left. cbn [andb buffer_ with_read_offset readahead_size_].
  fold cur.
  destruct (Z.ltb_spec cur (readahead_size_ st)); [| lia].
  rewrite orb_true_r. reflexivity.
Qed.

End AnyFile.

(** ** The decorator over a source held in memory: concrete runs *)

Lemma fall_through_clears_buffer_witness :
  let st :=
    snd (ReadaheadSequentialFile.Read 100 []
           (ReadaheadSequentialFile.make
              (MemFile.mk (pattern 2000) 0 512 false [OK; IOError 7])
              1000)) in
  AlignedBuffer.CurrentSize (ReadaheadSequentialFile.buffer_ st) = 1024 /\
  (let '(s, _, calls, st') := ReadaheadSequentialFile.Read 2000 [] st in
   s = IOError 7 /\ calls = [Bypass 1076] /\
   AlignedBuffer.CurrentSize (ReadaheadSequentialFile.buffer_ st') = 0) /\
  (let '(s, calls, st') := ReadaheadSequentialFile.Skip 1500 st in
   s = IOError 7 /\ calls = [FwdSkip 576] /\
   AlignedBuffer.CurrentSize (ReadaheadSequentialFile.buffer_ st') = 0).
Proof.
  intros st.
  destruct (fall_through_clears_buffer 2000 [] st) as (Hread & _).
  destruct (fall_through_clears_buffer 1500 [] st) as (_ & Hskip & _).
  vm_compute in Hread, Hskip.
  destruct (Hread eq_refl (fun Hgt => ltac:(discriminate Hgt)))
    as (Hr1 & Hr2 & _ & Hr3).
  destruct (Hskip eq_refl) as (Hs1 & Hs2 & _ & Hs3).
  vm_compute.
  split; [reflexivity |].
  split; (split; [| split]); assumption.
Defined.

(** Skips of the decorator: inside the buffered range only the read offset
    moves; past its end the residue is forwarded and the buffer cleared. *)
Example skip_inside_and_past_the_buffer :
  let st :=
    snd (ReadaheadSequentialFile.Read 100 []
           (ReadaheadSequentialFile.make
              (MemFile.healthy (pattern 2000) 512 false) 1000)) in
  let '(s1, calls1, st1) := ReadaheadSequentialFile.Skip 200 st in
  let '(s2, calls2, st2) := ReadaheadSequentialFile.Skip 1000 st1 in
  (s1 = OK /\ calls1 = [] /\
   ReadaheadSequentialFile.read_offset_ st1 = 300 /\
   AlignedBuffer.CurrentSize (ReadaheadSequentialFile.buffer_ st1) = 1024) /\
  (s2 = OK /\ calls2 = [FwdSkip 276] /\
   ReadaheadSequentialFile.read_offset_ st2 = 1300 /\
   MemFile.position (ReadaheadSequentialFile.file_ st2) = 1300 /\
   AlignedBuffer.CurrentSize (ReadaheadSequentialFile.buffer_ st2) = 0).
Proof.
  vm_compute. repeat split.
Qed.

(** A direct-I/O read of 100 bytes at offset 1000 with alignment 512 reads
    the aligned range [512, 1536) and returns the bytes [1000, 1100). *)
Example direct_io_read_unaligned :
  let r :=
    SequentialFileReader.mk (MemFile.healthy (pattern 2000) 512 true) 1000 in
  let '(s, out, r') := SequentialFileReader.Read 100 [] r in
  SequentialFileReader.aligned_range 512 1000 100 = (512, 488, 1024) /\
  s = OK /\ out = bytes_between 1000 1100 (pattern 2000) /\
  SequentialFileReader.offset_ r' = 1100.
Proof.
  vm_compute. repeat split.
Qed.

(** C5, as the claim states it, fails: a read whose refill fails is not
    undone.  Over a 2000-byte source whose second read fails, [read(100)]
    fills the buffer and [read(1000)] copies the 924 cached bytes, fails in
    the fill, and leaves [read_offset_] at 1024 instead of 100; the read
    that follows delivers the bytes from offset 1024 on, so that the bytes
    [100, 1024) are never delivered. *)
Lemma failed_read_is_not_undone :
  let st0 :=
    ReadaheadSequentialFile.make
      (MemFile.mk (pattern 2000) 0 512 false [OK; IOError 5]) 1000 in
  let '(_, _, _, st1) := ReadaheadSequentialFile.Read 100 [] st0 in
  let '(s2, res2, calls2, st2) := ReadaheadSequentialFile.Read 1000 [] st1 in
  let '(s3, res3, _, _) := ReadaheadSequentialFile.Read 10 [] st2 in
  ReadaheadSequentialFile.read_offset_ st1 = 100 /\
  s2 = IOError 5 /\ calls2 = [Fill 1024] /\
  ReadaheadSequentialFile.read_offset_ st2 = 1024 /\
  st2 <> st1 /\
  s3 = OK /\ res3 = bytes_between 1024 1034 (pattern 2000).
Proof.
  vm_compute. repeat split. discriminate.
Qed.

Lemma read_failure_outcome_witness :
  let st :=
    snd (ReadaheadSequentialFile.Read 100 []
           (ReadaheadSequentialFile.make
              (MemFile.mk (pattern 2000) 0 512 false [OK; IOError 5])
              1000)) in
  let f' := MemFile.mk (pattern 2000) 1024 512 false [] in
  let st1 := ReadaheadSequentialFile.with_read_offset 1024 st in
  AlignedBuffer.CurrentSize (ReadaheadSequentialFile.buffer_ st) = 1024 /\
  ReadaheadSequentialFile.read_offset_ st = 100 /\
  ReadaheadSequentialFile.Read 1000 (pattern 3) st
  = (IOError 5, pattern 3, [Fill 1024],
     ReadaheadSequentialFile.with_file f' st1) /\
  ReadaheadSequentialFile.Read 2000 (pattern 3) st
  = (IOError 5, pattern 3, [Bypass 1076],
     ReadaheadSequentialFile.with_buffer
       (AlignedBuffer.Clear (ReadaheadSequentialFile.buffer_ st))
       (ReadaheadSequentialFile.with_file f' st1)).
Proof.
  intros st f' st1.
  pose proof (read_failure_outcome 1000 (pattern 3) st) as Hfill.
  pose proof (read_failure_outcome 2000 (pattern 3) st) as Hbypass.
  vm_compute in Hfill, Hbypass.
  destruct (Hfill eq_refl) as (_ & Hf & _).
  destruct (Hbypass eq_refl) as (Hb & _).
  vm_compute.
  split; [reflexivity |].
  split; [reflexivity |].
  split.
  - exact (Hf eq_refl _ _ _ eq_refl eq_refl).
  - exact (Hb (fun Hgt => ltac:(discriminate Hgt)) _ _ _ eq_refl eq_refl).
Defined.

(** C4, as the claim states it, fails: over a 10-byte source, [read(100)]
    fills the buffer with 10 bytes, fewer than [readahead_size_] = 1024, and
    the [read(100)] that follows, with no invalidation in between, finds the
    cached bytes used up and issues another fill. *)
Lemma refill_after_partial_fill :
  let st0 :=
    ReadaheadSequentialFile.make (MemFile.healthy (pattern 10) 512 false)
      1000 in
  let '(_, res1, calls1, st1) := ReadaheadSequentialFile.Read 100 [] st0 in
  let '(s2, res2, calls2, _) := ReadaheadSequentialFile.Read 100 [] st1 in
  calls1 = [Fill 1024] /\ res1 = pattern 10 /\
  AlignedBuffer.CurrentSize (ReadaheadSequentialFile.buffer_ st1) = 10 /\
  ReadaheadSequentialFile.readahead_size_ st1 = 1024 /\
  s2 = OK /\ res2 = [] /\ calls2 = [Fill 1024].
Proof.
  vm_compute. repeat split.
Qed.

Lemma eof_short_circuit_witness :
  let st :=
    snd (ReadaheadSequentialFile.Read 4 []
           (ReadaheadSequentialFile.make
              (MemFile.healthy (pattern 10) 512 false) 1000)) in
  ReadaheadSequentialFile.Read 100 [] st
  = (OK, bytes_between 4 10 (pattern 10), [],
     ReadaheadSequentialFile.with_read_offset 10 st).
Proof.
  intros st.
  assert (AlignedBuffer.CurrentSize (ReadaheadSequentialFile.buffer_ st)
          < ReadaheadSequentialFile.readahead_size_ st) as Hshort
    by (vm_compute; reflexivity).
  assert (0 <= ReadaheadSequentialFile.buffer_offset_ st
          <= ReadaheadSequentialFile.read_offset_ st) as Hlo
    by (vm_compute; split; discriminate).
  assert (ReadaheadSequentialFile.read_offset_ st
          < ReadaheadSequentialFile.buffer_offset_ st
            + AlignedBuffer.CurrentSize (ReadaheadSequentialFile.buffer_ st))
    as Hhi by (vm_compute; reflexivity).
  assert (ReadaheadSequentialFile.buffer_offset_ st
          + AlignedBuffer.CurrentSize (ReadaheadSequentialFile.buffer_ st)
          < SIZE_MOD) as Hfit by (vm_compute; reflexivity).
  assert (0 <= 100) as Hn by lia.
  exact (eof_short_circuit 100 [] st Hshort Hlo Hhi Hfit Hn).
Defined.

(** ** The decorator over a source held in memory: the invariant *)

Section OverMemFile.
Import ReadaheadSequentialFile Run.

#[local] Arguments wadd : simpl never.
#[local] Arguments wsub : simpl never.
#[local] Arguments sub : simpl never.
#[local] Arguments Roundup : simpl never.
#[local] Arguments Z.min : simpl never.
#[local] Arguments Z.max : simpl never.
#[local] Arguments SIZE_MOD : simpl never.

Lemma MemFile_Read_outcome (n : Z) (r : Slice) (f : MemFile.t) :
  0 <= MemFile.position f <= Slice_size (MemFile.contents f) ->
  0 <= n ->
  let k := Z.min n (MemFile.remaining f) in
  exists s res f',
    MemFile.Read n r f = (s, res, f') /\
    MemFile.contents f' = MemFile.contents f /\
    (MemFile.faults f = [] -> s = OK /\ MemFile.faults f' = []) /\
    ((s = OK /\ res = sub (MemFile.position f) k (MemFile.contents f) /\
      MemFile.position f' = MemFile.position f + k)
     \/ (ok s = false /\ res = r /\
         MemFile.position f' = MemFile.position f)).
Proof.
  intros Hpos Hn k. unfold MemFile.Read, MemFile.next_fault.
  assert (Z.max 0 k = k) as Hk.
  { unfold k, MemFile.remaining. lia. }
  destruct (MemFile.faults f) as [| [| code] rest] eqn:Hfaults;
    cbn [ok]; unfold MemFile.remaining in *; cbn; fold k.
  - rewrite Hk. eexists _, _, _. split; [reflexivity |]. cbn.
    repeat split; auto.
  - rewrite Hk. eexists _, _, _. split; [reflexivity |]. cbn.
    repeat split; try discriminate. left. auto.
  - eexists _, _, _. split; [reflexivity |]. cbn.
    repeat split; try discriminate. right. auto.
Qed.

Lemma MemFile_Skip_outcome (n : Z) (f : MemFile.t) :
  0 <= MemFile.position f <= Slice_size (MemFile.contents f) ->
  0 <= n ->
  let k := Z.min n (MemFile.remaining f) in
  exists s f',
    MemFile.Skip n f = (s, f') /\
    MemFile.contents f' = MemFile.contents f /\
    (MemFile.faults f = [] -> s = OK /\ MemFile.faults f' = []) /\
    ((s = OK /\ MemFile.position f' = MemFile.position f + k)
     \/ (ok s = false /\ MemFile.position f' = MemFile.position f)).
Proof.
  intros Hpos Hn k. unfold MemFile.Skip, MemFile.next_fault.
  assert (Z.max 0 k = k) as Hk.
  { unfold k, MemFile.remaining. lia. }
  destruct (MemFile.faults f) as [| [| code] rest] eqn:Hfaults;
    cbn [ok]; unfold MemFile.remaining in *; cbn; fold k.
  - rewrite Hk. eexists _, _. split; [reflexivity |]. cbn.
    repeat split; auto.
  - rewrite Hk. eexists _, _. split; [reflexivity |]. cbn.
    repeat split; try discriminate. left. auto.
  - eexists _, _. split; [reflexivity |]. cbn.
    repeat split; try discriminate. right. auto.
Qed.

Lemma Read_unfold {F : Type} `{SequentialFile F}
  (n : Z) (result : Slice) (st : t F) :
  Read n result st
  = let '(hit, cached_len, cached, st1) := TryReadFromCache n st in
    if hit && ((cached_len =? n)
               || (AlignedBuffer.CurrentSize (buffer_ st1)
                   <? readahead_size_ st1))
    then (OK, cached, [], st1)
    else Read_tail (n -w cached_len) cached result st1.
Proof. reflexivity. Qed.

Lemma Inv_make (content : list byte) (alignment : Z) (direct : bool)
  (faults : list Status) (readahead_size : Z) :
  0 < alignment -> Slice_size content < SIZE_MOD ->
  Inv content
      (make (MemFile.mk content 0 alignment direct faults) readahead_size).
Proof.
  intros Ha Hlen. pose proof (Slice_size_nonneg content).
  constructor; cbn; try size_lia; try reflexivity.
  apply Roundup_bounds. exact Ha.
Qed.

Lemma Read_tail_Inv (content : list byte) (st : t MemFile.t)
  (n : Z) (cached : list byte) (result : Slice) :
  Inv content st ->
  (0 < AlignedBuffer.CurrentSize (buffer_ st) ->
   read_offset_ st = MemFile.position (file_ st)) ->
  0 <= n < SIZE_MOD ->
  let pos := MemFile.position (file_ st) in
  let len := Slice_size content in
  let '(s, res, calls, st') := Read_tail n cached result st in
  Inv content st' /\
  read_offset_ st <= read_offset_ st' /\
  alignment_ st' = alignment_ st /\
  readahead_size_ st' = readahead_size_ st /\
  (MemFile.faults (file_ st) = [] ->
   s = OK /\ MemFile.faults (file_ st') = [] /\
   exists m,
     0 <= m <= n /\ pos + m <= len /\
     res = cached ++ sub pos m content /\
     cursor st' = pos + m /\
     (n + alignment_ st < SIZE_MOD -> m = Z.min n (len - pos))).
Proof.
  intros HInv Hedge Hn pos len.
  destruct st as [f a ra [ba cap cur data] bo ro].
  destruct HInv as [Hc Hlen Hpos Hro Hbo Hcur Hbuf Hsync Heof Ha Hcap].
  cbn in *. fold pos in Hpos, Hbuf, Hsync, Heof, Hedge.
  fold len in Hlen, Hpos, Hsync, Heof.
  assert (0 <= MemFile.position f <= Slice_size (MemFile.contents f))
    as Hpos' by (rewrite Hc; exact Hpos).
  assert (ro = pos \/ pos = len) as Hat by lia.
  pose proof (wrap_range (n + a)) as Hsum. fold (n +w a) in Hsum.
  unfold Read_tail, ReadIntoBuffer. cbn.
  destruct (Z.leb_spec ra (n +w a)) as [Hby | Hfill].
  - destruct (MemFile_Read_outcome n result f Hpos' ltac:(lia))
      as (s & res & f' & Heq & Hcont & Hfaults & Hcase).
    rewrite Heq. unfold MemFile.remaining in Hcase.
    rewrite Hc in Hcase. fold pos len in Hcase.
    destruct Hcase as [(-> & -> & Hp) | (Hs & -> & Hp)].
    + cbn.
      rewrite Slice_size_sub by lia.
      assert (ro +w Z.min n (len - pos) = ro + Z.min n (len - pos)) as Hw
        by (apply wadd_small; lia).
      rewrite Hw.
      split; [| split; [lia | split; [reflexivity | split; [reflexivity |]]]].
      * constructor; cbn; try lia; try congruence.
      * intros Hnf. destruct (Hfaults Hnf) as [_ Hnf'].
        split; [reflexivity | split; [exact Hnf' |]].
        exists (Z.min n (len - pos)). unfold cursor. cbn.
        repeat split; try lia.
    + rewrite Hs. cbn.
      split; [| split; [lia | split; [reflexivity | split; [reflexivity |]]]].
      * constructor; cbn; try lia; try congruence.
      * intros Hnf. destruct (Hfaults Hnf) as [-> _]. discriminate Hs.
  - destruct (Z.ltb_spec cap ra) as [Hsmall | _]; [lia |].
    destruct (MemFile_Read_outcome ra [] f Hpos' ltac:(lia))
      as (s & res & f' & Heq & Hcont & Hfaults & Hcase).
    rewrite Heq. unfold MemFile.remaining in Hcase.
    rewrite Hc in Hcase. fold pos len in Hcase.
    destruct Hcase as [(-> & -> & Hp) | (Hs & -> & Hp)].
    + cbn. rewrite Slice_size_sub by lia.
      set (k := Z.min ra (len - pos)) in *.
      destruct (Z.eq_dec k 0) as [Hk0 | Hk0].
      * rewrite TryReadFromCache_miss
          by (right; cbn; rewrite Hk0, wadd_0_r by lia; lia).
        cbn.
        split; [| split; [lia | split; [reflexivity | split; [reflexivity |]]]].
        -- constructor; cbn; try lia; try congruence.
        -- intros Hnf. destruct (Hfaults Hnf) as [_ Hnf'].
           split; [reflexivity | split; [exact Hnf' |]].
           exists 0. unfold cursor. cbn.
           destruct (Z.ltb_spec 0 k); [lia |].
           rewrite sub_nil by lia.
           repeat split; try lia.
      * assert (ro = pos) as -> by lia.
        rewrite TryReadFromCache_hit by (cbn; lia).
        cbn.
        replace (pos + k - pos) with k by lia.
        replace (pos - pos) with 0 by lia.
        split; [| split; [lia | split; [reflexivity | split; [reflexivity |]]]].
        -- constructor; cbn; try lia; try congruence.
           intros _. rewrite Hp. repeat split; lia.
        -- intros Hnf. destruct (Hfaults Hnf) as [_ Hnf'].
           split; [reflexivity | split; [exact Hnf' |]].
           exists (Z.min k n). unfold cursor. cbn.
           destruct (Z.ltb_spec 0 k); [| lia].
           rewrite sub_sub by lia.
           replace (pos + 0) with pos by lia.
           repeat split; try lia.
           intros Hfit. rewrite wadd_small in Hfill by lia. lia.
    + rewrite Hs. cbn. rewrite Hs. cbn.
      split; [| split; [lia | split; [reflexivity | split; [reflexivity |]]]].
      * constructor; cbn; rewrite ?Hp; fold pos; try lia; try congruence;
          assumption.
      * intros Hnf. destruct (Hfaults Hnf) as [-> _]. discriminate Hs.
Qed.

Lemma Read_Inv (content : list byte) (st : t MemFile.t)
  (n : Z) (result : Slice) :
  Inv content st ->
  0 <= n < SIZE_MOD ->
  let len := Slice_size content in
  let '(s, res, calls, st') := Read n result st in
  Inv content st' /\
  read_offset_ st <= read_offset_ st' /\
  alignment_ st' = alignment_ st /\
  readahead_size_ st' = readahead_size_ st /\
  (MemFile.faults (file_ st) = [] ->
   s = OK /\ MemFile.faults (file_ st') = [] /\
   exists m,
     0 <= m <= n /\ cursor st + m <= len /\
     res = sub (cursor st) m content /\
     cursor st' = cursor st + m /\
     (n + alignment_ st < SIZE_MOD -> m = Z.min n (len - cursor st))).
Proof.
  intros HInv Hn len. rewrite Read_unfold.
  pose proof HInv as [Hc Hlen Hpos Hro Hbo Hcur Hbuf Hsync Heof Ha Hcap].
  set (cur := AlignedBuffer.CurrentSize (buffer_ st)) in *.
  set (pos := MemFile.position (file_ st)) in *.
  fold len in Hlen, Hpos, Hsync, Heof.
  destruct (Z.lt_ge_cases 0 cur) as [Hfull | Hempty];
    [destruct (Z.lt_ge_cases (read_offset_ st) pos) as [Hin | Hout] |].
  - (* the read offset is inside the buffered range *)
    destruct (Hbuf Hfull) as (Hbo0 & Hend & Hrange & Hdata).
    rewrite TryReadFromCache_hit by (fold cur; lia).
    fold cur. rewrite Hend.
    set (c := Z.min (pos - read_offset_ st) n).
    assert (sub (read_offset_ st - buffer_offset_ st) c
                (AlignedBuffer.BufferStart (buffer_ st))
            = sub (read_offset_ st) c content) as Hcached.
    { rewrite Hdata, sub_sub by (unfold c; lia). f_equal. lia. }
    rewrite Hcached.
    assert (cursor st = read_offset_ st) as Hcursor.
    { unfold cursor. fold cur. destruct (Z.ltb_spec 0 cur); [reflexivity | lia]. }
    assert (Inv content (with_read_offset (read_offset_ st + c) st))
      as HInv1.
    { destruct st as [f a ra b bo ro]. cbn in *.
      constructor; cbn; try assumption; try (unfold c; lia).
      intros _. repeat split; try tauto; unfold c; lia. }
    cbn [andb buffer_ with_read_offset readahead_size_]. fold cur.
    destruct ((c =? n) || (cur <? readahead_size_ st)) eqn:Hdone.
    + split; [exact HInv1 |].
      destruct st as [f a ra b bo ro]. cbn in *.
      split; [unfold c; lia | split; [reflexivity | split; [reflexivity |]]].
      intros Hnf. split; [reflexivity | split; [exact Hnf |]].
      exists c. rewrite Hcursor. unfold cursor. cbn. fold cur.
      destruct (Z.ltb_spec 0 cur); [| lia].
      repeat split; try (unfold c; lia).
    + apply orb_false_iff in Hdone. destruct Hdone as [Hpart Hlong].
      apply Z.eqb_neq in Hpart. apply Z.ltb_ge in Hlong.
      assert (c = pos - read_offset_ st) as Hc' by (unfold c in *; lia).
      rewrite wsub_small by (unfold c; lia).
      pose proof (Read_tail_Inv content
                    (with_read_offset (read_offset_ st + c) st)
                    (n - c) (sub (read_offset_ st) c content) result
                    HInv1) as Htail.
      destruct st as [f a ra b bo ro]. cbn in *.
      specialize (Htail ltac:(intros _; fold pos; lia) ltac:(unfold c; lia)).
      destruct (Read_tail (n - c) _ result _) as [[[s res] calls] st'].
      destruct Htail as (HInv' & Hmono & Hal & Hra & Hok).
      split; [exact HInv' |].
      split; [unfold c in *; lia | split; [exact Hal | split; [exact Hra |]]].
      intros Hnf. destruct (Hok Hnf) as (-> & Hnf' & m & Hm & Hfit & -> & Hcur' & Hexact).
      split; [reflexivity | split; [exact Hnf' |]].
      exists (c + m). rewrite Hcursor. fold pos in Hfit, Hcur', Hexact.
      change (MemFile.position f) with pos.
      replace pos with (ro + c) in Hfit, Hcur' |- * by lia.
      rewrite sub_app by (unfold c in *; lia).
      repeat split; lia.
  - (* the cached bytes are used up *)
    destruct (Hbuf Hfull) as (Hbo0 & Hend & Hrange & Hdata).
    rewrite TryReadFromCache_miss
      by (right; fold cur; rewrite wadd_small by lia; lia).
    cbn [andb]. rewrite wsub_small by lia. replace (n - 0) with n by lia.
    pose proof (Read_tail_Inv content st n [] result HInv
                  ltac:(intros _; fold pos; lia) Hn) as Htail.
    destruct (Read_tail n [] result st) as [[[s res] calls] st'].
    assert (cursor st = pos) as Hcursor.
    { unfold cursor. fold cur. destruct (Z.ltb_spec 0 cur); [| lia].
      fold pos. lia. }
    rewrite Hcursor. exact Htail.
  - (* the buffer is empty *)
    rewrite TryReadFromCache_miss.
    2:{ fold cur. replace cur with 0 by lia.
        rewrite wadd_0_r by lia. lia. }
    cbn [andb]. rewrite wsub_small by lia. replace (n - 0) with n by lia.
    pose proof (Read_tail_Inv content st n [] result HInv
                  ltac:(fold cur; lia) Hn) as Htail.
    destruct (Read_tail n [] result st) as [[[s res] calls] st'].
    assert (cursor st = pos) as Hcursor.
    { unfold cursor. fold cur. destruct (Z.ltb_spec 0 cur); [lia |].
      reflexivity. }
    rewrite Hcursor. exact Htail.
Qed.

Lemma available_cursor (content : list byte) (st : t MemFile.t) :
  Inv content st -> available st = Slice_size content - cursor st.
Proof.
  intros [Hc Hlen Hpos Hro Hbo Hcur Hbuf Hsync Heof Ha Hcap].
  unfold available, cached_left, cursor, MemFile.remaining. rewrite Hc.
  destruct (Z.ltb_spec 0 (AlignedBuffer.CurrentSize (buffer_ st)))
    as [Hfull | Hempty].
  - destruct (Hbuf Hfull) as (Hbo0 & Hend & Hrange & _).
    destruct (Z.leb_spec (buffer_offset_ st) (read_offset_ st)); [| lia].
    destruct (Z.ltb_spec (read_offset_ st)
                (buffer_offset_ st
                 + AlignedBuffer.CurrentSize (buffer_ st))); cbn [andb]; lia.
  - destruct (Z.leb_spec (buffer_offset_ st) (read_offset_ st));
      destruct (Z.ltb_spec (read_offset_ st)
                  (buffer_offset_ st
                   + AlignedBuffer.CurrentSize (buffer_ st)));
      cbn [andb]; lia.
Qed.

Lemma cursor_range (content : list byte) (st : t MemFile.t) :
  Inv content st -> 0 <= cursor st <= Slice_size content.
Proof.
  intros [Hc Hlen Hpos Hro Hbo Hcur Hbuf Hsync Heof Ha Hcap].
  unfold cursor.
  destruct (Z.ltb_spec 0 (AlignedBuffer.CurrentSize (buffer_ st)))
    as [Hfull | Hempty]; [| lia].
  destruct (Hbuf Hfull) as (Hbo0 & Hend & Hrange & _). lia.
Qed.

Lemma available_no_wrap (content : list byte) (st : t MemFile.t) (k : Z) :
  Inv content st -> 0 <= k <= available st ->
  read_offset_ st + k < SIZE_MOD.
Proof.
  intros HInv Hk. rewrite (available_cursor content st HInv) in Hk.
  destruct HInv as [Hc Hlen Hpos Hro Hbo Hcur Hbuf Hsync Heof Ha Hcap].
  unfold cursor in Hk.
  destruct (Z.ltb_spec 0 (AlignedBuffer.CurrentSize (buffer_ st)))
    as [Hfull | Hempty].
  - lia.
  - destruct (Hsync ltac:(lia)); lia.
Qed.

Lemma Skip_Inv (content : list byte) (st : t MemFile.t) (n : Z) :
  Inv content st ->
  0 <= n -> read_offset_ st + n < SIZE_MOD ->
  let '(s, calls, st') := Skip n st in
  Inv content st' /\
  read_offset_ st <= read_offset_ st' /\
  alignment_ st' = alignment_ st /\
  readahead_size_ st' = readahead_size_ st /\
  (MemFile.faults (file_ st) = [] ->
   s = OK /\ MemFile.faults (file_ st') = [] /\
   (n <= available st -> cursor st' = cursor st + n)).
Proof.
  intros HInv Hn Hfit.
  pose proof (available_cursor content st HInv) as Hav.
  destruct st as [f a ra [ba cap cur data] bo ro].
  destruct HInv as [Hc Hlen Hpos Hro Hbo Hcur Hbuf Hsync Heof Ha Hcap].
  unfold cursor in *. cbn in *.
  set (pos := MemFile.position f) in *.
  set (len := Slice_size content) in *.
  assert (0 <= MemFile.position f <= Slice_size (MemFile.contents f))
    as Hpos' by (rewrite Hc; exact Hpos).
  unfold Skip. cbn.
  assert (forall n1 ro1,
            0 <= n1 -> 0 <= ro1 -> ro <= ro1 -> ro1 + n1 < SIZE_MOD ->
            ro1 = pos \/ pos = len ->
            (0 < cur -> ro1 = pos /\ ro1 + n1 = ro + n) ->
            (cur <= 0 -> ro1 = ro /\ n1 = n) ->
            0 < n1 ->
            let '(s, calls, st') :=
              let '(s, f') := MemFile.Skip n1 f in
              (s, [FwdSkip n1],
               with_buffer
                 (AlignedBuffer.Clear
                    (buffer_
                       (if ok s
                        then with_read_offset (ro1 +w n1)
                               (mk f' a ra
                                   (AlignedBuffer.mk ba cap cur data) bo ro1)
                        else mk f' a ra
                               (AlignedBuffer.mk ba cap cur data) bo ro1)))
                 (if ok s
                  then with_read_offset (ro1 +w n1)
                         (mk f' a ra (AlignedBuffer.mk ba cap cur data)
                             bo ro1)
                  else mk f' a ra (AlignedBuffer.mk ba cap cur data)
                          bo ro1)) in
            Inv content st' /\
            ro <= read_offset_ st' /\
            alignment_ st' = a /\
            readahead_size_ st' = ra /\
            (MemFile.faults f = [] ->
             s = OK /\ MemFile.faults (file_ st') = [] /\
             (n <= available
                     (mk f a ra (AlignedBuffer.mk ba cap cur data) bo ro) ->
              (if 0 <? AlignedBuffer.CurrentSize (buffer_ st')
               then read_offset_ st'
               else MemFile.position (file_ st'))
              = (if 0 <? cur then ro else pos) + n))) as Hforward.
  { intros n1 ro1 Hn1 Hro1 Hmono Hfit1 Hat Hfull Hempty Hpos1.
    destruct (MemFile_Skip_outcome n1 f Hpos' Hn1)
      as (s & f' & Heq & Hcont & Hfaults & Hcase).
    rewrite Heq. unfold MemFile.remaining in Hcase.
    rewrite Hc in Hcase. fold pos len in Hcase.
    destruct Hcase as [(-> & Hp) | (Hs & Hp)].
    - cbn. rewrite wadd_small by lia.
      split; [| split; [lia | split; [reflexivity | split; [reflexivity |]]]].
      + constructor; cbn; rewrite ?Hp; try lia; try congruence.
      + intros Hnf. destruct (Hfaults Hnf) as [_ Hnf'].
        split; [reflexivity | split; [exact Hnf' |]].
        intros Hroom. rewrite Hav in Hroom. rewrite Hp.
        destruct (Z.ltb_spec 0 cur); lia.
    - rewrite Hs. cbn.
      split; [| split; [lia | split; [reflexivity | split; [reflexivity |]]]].
      + constructor; cbn; rewrite ?Hp; try lia; try congruence.
      + intros Hnf. destruct (Hfaults Hnf) as [-> _]. discriminate Hs. }
  destruct (Z.ltb_spec 0 cur) as [Hfull | Hempty].
  - destruct (Hbuf Hfull) as (Hbo0 & Hend & Hrange & Hdata).
    rewrite (wadd_small bo cur) by lia. rewrite (wadd_small ro n) by lia.
    rewrite Hend. fold pos.
    destruct (Z.leb_spec pos (ro + n)) as [Hpast | Hinside].
    + rewrite (wsub_small pos ro) by lia.
      rewrite (wsub_small n) by lia.
      cbn.
      destruct (Z.ltb_spec 0 (n - (pos - ro))) as [Hmore | Hdone].
      * apply (Hforward (n - (pos - ro)) pos); lia.
      * cbn.
        split; [| split; [lia | split; [reflexivity | split; [reflexivity |]]]].
        -- constructor; cbn; try lia; try congruence.
           intros _. repeat split; try lia. exact Hdata.
        -- intros Hnf. repeat split; try assumption.
           destruct (Z.ltb_spec 0 cur); lia.
    + cbn.
      split; [| split; [lia | split; [reflexivity | split; [reflexivity |]]]].
      * constructor; cbn; try lia; try congruence.
        intros _. repeat split; try lia. exact Hdata.
      * intros Hnf. repeat split; try assumption.
        destruct (Z.ltb_spec 0 cur); lia.
  - destruct (Z.ltb_spec 0 n) as [Hmore | Hdone].
    + apply (Hforward n ro); lia.
    + cbn.
      split; [| split; [lia | split; [reflexivity | split; [reflexivity |]]]].
      * constructor; cbn; try lia; try congruence.
      * intros Hnf. repeat split; try assumption.
        destruct (Z.ltb_spec 0 cur); lia.
Qed.

Lemma Reachable_Inv (content : list byte) (alignment : Z) (direct : bool)
  (faults : list Status) (readahead_size : Z) (st : t MemFile.t) :
  0 < alignment -> Slice_size content < SIZE_MOD ->
  Reachable
    (make (MemFile.mk content 0 alignment direct faults) readahead_size)
    st ->
  Inv content st /\
  alignment_ st = alignment /\
  (faults = [] -> MemFile.faults (file_ st) = []).
Proof.
  intros Ha Hlen Hreach.
  induction Hreach as [| n result st Hreach IH Hn | n st Hreach IH Hn Hfit].
  - split; [now apply Inv_make | split; [reflexivity | auto]].
  - destruct IH as (HInv & Hal & Hnf).
    pose proof (Read_Inv content st n result HInv Hn) as Hstep.
    destruct (Read n result st) as [[[s res] calls] st']. cbn [snd].
    destruct Hstep as (HInv' & _ & Hal' & _ & Hok).
    split; [exact HInv' | split; [congruence |]].
    intros Hf. apply Hok. auto.
  - destruct IH as (HInv & Hal & Hnf).
    pose proof (Skip_Inv content st n HInv Hn Hfit) as Hstep.
    destruct (Skip n st) as [[s calls] st']. cbn [snd].
    destruct Hstep as (HInv' & _ & Hal' & _ & Hok).
    split; [exact HInv' | split; [congruence |]].
    intros Hf. apply Hok. auto.
Qed.

Lemma total_nonneg (ns : list Z) :
  Forall (fun n => 0 <= n < SIZE_MOD) ns -> 0 <= total ns.
Proof.
  induction 1 as [| n ns Hn Hns IH]; unfold total in *; cbn; lia.
Qed.

Lemma Read_all_stream (content : list byte) (ns : list Z) :
  Forall (fun n => 0 <= n < SIZE_MOD) ns ->
  forall st : t MemFile.t,
    Inv content st -> MemFile.faults (file_ st) = [] ->
    let '(outs, st') := Read_all ns st in
    Forall (fun r => fst r = OK) outs /\
    exists m,
      0 <= m /\ cursor st + m <= Slice_size content /\
      concat (map snd outs) = sub (cursor st) m content /\
      (Forall (fun n => n + alignment_ st < SIZE_MOD) ns ->
       m = Z.min (total ns) (Slice_size content - cursor st)).
Proof.
  induction 1 as [| n ns Hn Hns IH]; intros st HInv Hnf.
  - cbn. split; [constructor |]. exists 0.
    pose proof (cursor_range content st HInv).
    rewrite sub_nil by lia. repeat split; lia.
  - cbn [Read_all].
    pose proof (Read_Inv content st n [] HInv Hn) as Hstep.
    destruct (Read n [] st) as [[[s res] calls] st1].
    destruct Hstep as (HInv1 & _ & Hal & _ & Hok).
    destruct (Hok Hnf) as (-> & Hnf1 & m & Hm & Hfit & -> & Hcur1 & Hexact).
    specialize (IH st1 HInv1 Hnf1).
    destruct (Read_all ns st1) as [outs st2].
    destruct IH as (Hall & m' & Hm' & Hfit' & Hstream & Hexact').
    split; [constructor; [reflexivity | exact Hall] |].
    exists (m + m'). cbn [map concat snd].
    rewrite Hstream, Hcur1.
    pose proof (cursor_range content st HInv).
    pose proof (total_nonneg ns Hns).
    rewrite sub_app by lia. repeat split; try lia.
    intros Hroom. inversion Hroom as [| ? ? Hn1 Hns1]; subst.
    rewrite Hal in Hexact'. specialize (Hexact Hn1).
    specialize (Hexact' Hns1). rewrite Hcur1 in Hexact'.
    cbn [total fold_right]. fold (total ns). lia.
Qed.

(** ** Cache transparency, skip and read, the cursor *)

(** C2: over a source of any contents (of a length that fits in 64 bits)
    and for any list of read sizes, the reads of the decorator all succeed
    and the concatenation of their results is what one read of that total
    length returns on the source itself.  When moreover no size comes
    within one alignment of [2^64], nothing is lost: the concatenation has
    the length asked for in total, or that of the source if that is less. *)
Theorem cache_transparency (content : list byte) (alignment : Z)
  (direct : bool) (readahead_size : Z) (ns : list Z) :
  0 < alignment ->
  Slice_size content < SIZE_MOD ->
  Forall (fun n => 0 <= n < SIZE_MOD) ns ->
  let source := MemFile.healthy content alignment direct in
  let '(outs, _) := Read_all ns (make source readahead_size) in
  let stream := concat (map snd outs) in
  Forall (fun r => fst r = OK) outs /\
  MemFile.Read (Slice_size stream) [] source
  = (OK, stream, MemFile.move_to (Slice_size stream) source) /\
  (Forall (fun n => n + alignment < SIZE_MOD) ns ->
   Slice_size stream = Z.min (total ns) (Slice_size content)).
Proof.
  intros Ha Hlen Hns source.
  pose proof (Inv_make content alignment direct [] readahead_size Ha Hlen)
    as HInv.
  pose proof (Read_all_stream content ns Hns _ HInv eq_refl) as Hrun.
  change (MemFile.mk content 0 alignment direct []) with source in Hrun.
  destruct (Read_all ns (make source readahead_size)) as [outs st'].
  destruct Hrun as (Hall & m & Hm & Hfit & Hstream & Hexact).
  change (cursor (make source readahead_size)) with 0
    in Hfit, Hstream, Hexact.
  change (alignment_ (make source readahead_size)) with alignment in Hexact.
  cbn zeta. split; [exact Hall |].
  rewrite Hstream. rewrite Slice_size_sub by lia.
  split.
  - unfold MemFile.Read, MemFile.remaining. cbn.
    replace (Z.max 0 (Z.min m (Slice_size content - 0))) with m by lia.
    reflexivity.
  - intros Hroom. rewrite (Hexact Hroom). lia.
Qed.

Lemma cache_transparency_witness :
  let source := MemFile.healthy (pattern 2000) 512 false in
  let '(outs, _) := Read_all [100; 500; 1000; 7; 0; 900] (make source 1000) in
  let stream := concat (map snd outs) in
  Forall (fun r => fst r = OK) outs /\
  MemFile.Read (Slice_size stream) [] source
  = (OK, stream, MemFile.move_to (Slice_size stream) source) /\
  (Forall (fun n => n + 512 < SIZE_MOD) [100; 500; 1000; 7; 0; 900] ->
   Slice_size stream
   = Z.min (total [100; 500; 1000; 7; 0; 900]) (Slice_size (pattern 2000))).
Proof.
  assert (0 < 512) as Ha by lia.
  assert (Slice_size (pattern 2000) < SIZE_MOD) as Hlen
    by (vm_compute; reflexivity).
  assert (Forall (fun n => 0 <= n < SIZE_MOD) [100; 500; 1000; 7; 0; 900])
    as Hns by (repeat constructor; unfold SIZE_MOD; lia).
  exact (cache_transparency (pattern 2000) 512 false 1000
           [100; 500; 1000; 7; 0; 900] Ha Hlen Hns).
Defined.

(** C6: from any state the decorator reaches over a healthy source, for
    [k] and [n] with [k + n] at most the bytes still available, [skip(k)]
    followed by [read(n)] succeeds and returns the [n] bytes that
    [read(k + n)] from the same state returns after its first [k]. *)
Theorem skip_then_read (content : list byte) (alignment : Z)
  (direct : bool) (readahead_size : Z) (st : t MemFile.t)
  (k n : Z) (result : Slice) :
  0 < alignment ->
  Slice_size content + alignment < SIZE_MOD ->
  Reachable (make (MemFile.healthy content alignment direct) readahead_size)
            st ->
  0 <= k -> 0 <= n -> k + n <= available st ->
  let '(s1, _, st1) := Skip k st in
  let '(s2, res2, _, _) := Read n result st1 in
  let '(s3, res3, _, _) := Read (k + n) result st in
  s1 = OK /\ s2 = OK /\ s3 = OK /\
  res2 = skipn (Z.to_nat k) res3 /\
  Slice_size res2 = n.
Proof.
  intros Ha Hlen Hreach Hk Hn Hroom.
  destruct (Reachable_Inv content alignment direct [] readahead_size st
              Ha ltac:(lia) Hreach) as (HInv & Hal & Hnf).
  specialize (Hnf eq_refl).
  pose proof (available_cursor content st HInv) as Hav.
  pose proof (cursor_range content st HInv) as Hcur.
  pose proof (available_no_wrap content st k HInv ltac:(lia)) as Hfit.
  pose proof (Skip_Inv content st k HInv Hk Hfit) as Hskip.
  destruct (Skip k st) as [[s1 calls1] st1].
  destruct Hskip as (HInv1 & _ & Hal1 & _ & Hok1).
  destruct (Hok1 Hnf) as (-> & Hnf1 & Hcur1).
  specialize (Hcur1 ltac:(lia)).
  pose proof (Read_Inv content st1 n result HInv1 ltac:(lia)) as Hread.
  destruct (Read n result st1) as [[[s2 res2] calls2] st2].
  destruct Hread as (_ & _ & _ & _ & Hok2).
  destruct (Hok2 Hnf1) as (-> & _ & m2 & Hm2 & _ & -> & _ & Hexact2).
  pose proof (Read_Inv content st (k + n) result HInv ltac:(lia)) as Hboth.
  destruct (Read (k + n) result st) as [[[s3 res3] calls3] st3].
  destruct Hboth as (_ & _ & _ & _ & Hok3).
  destruct (Hok3 Hnf) as (-> & _ & m3 & Hm3 & _ & -> & _ & Hexact3).
  specialize (Hexact2 ltac:(lia)). specialize (Hexact3 ltac:(lia)).
  assert (m2 = n) as -> by lia. assert (m3 = k + n) as -> by lia.
  repeat split.
  - rewrite skipn_sub by lia. rewrite Hcur1. f_equal. lia.
  - apply Slice_size_sub; lia.
Qed.

Lemma skip_then_read_witness :
  let st :=
    snd (Read 100 []
           (make (MemFile.healthy (pattern 2000) 512 false) 1000)) in
  let '(s1, _, st1) := Skip 300 st in
  let '(s2, res2, _, _) := Read 700 [] st1 in
  let '(s3, res3, _, _) := Read (300 + 700) [] st in
  s1 = OK /\ s2 = OK /\ s3 = OK /\
  res2 = skipn (Z.to_nat 300) res3 /\
  Slice_size res2 = 700.
Proof.
  intros st.
  assert (0 < 512) as Ha by lia.
  assert (Slice_size (pattern 2000) + 512 < SIZE_MOD) as Hlen
    by (vm_compute; reflexivity).
  assert (0 <= 100 < SIZE_MOD) as Hn by (unfold SIZE_MOD; lia).
  assert (300 + 700 <= available st) as Hroom
    by (vm_compute; discriminate).
  exact (skip_then_read (pattern 2000) 512 false 1000 st 300 700 [] Ha Hlen
           (Reachable_Read _ 100 [] _ (Reachable_init _) Hn)
           ltac:(lia) ltac:(lia) Hroom).
Defined.

(** C7: the code breaks the claim, and the comment on [read_offset_]
    ("read_offset_ is monotonically increasing"), when a cursor is taken
    past [2^64 - 1]: the cursors are 64-bit counters advanced with no check,
    so after [skip(2^64 - 1)] and [skip(1)] the read offset of the decorator
    and the logical offset of the adapter (under direct I/O) have both gone
    from [2^64 - 1] back to 0. *)
Lemma cursor_wraps_around :
  let r0 :=
    SequentialFileReader.mk (MemFile.healthy (pattern 16) 512 true) 0 in
  let r1 := snd (SequentialFileReader.Skip (2 ^ 64 - 1) r0) in
  let r2 := snd (SequentialFileReader.Skip 1 r1) in
  let st0 := make (MemFile.healthy (pattern 16) 512 false) 1000 in
  let st1 := snd (Skip (2 ^ 64 - 1) st0) in
  let st2 := snd (Skip 1 st1) in
  SequentialFileReader.offset_ r1 = 2 ^ 64 - 1 /\
  SequentialFileReader.offset_ r2 = 0 /\
  ~ SequentialFileReader.offset_ r1 <= SequentialFileReader.offset_ r2 /\
  read_offset_ st1 = 2 ^ 64 - 1 /\
  read_offset_ st2 = 0 /\
  ~ read_offset_ st1 <= read_offset_ st2.
Proof.
  vm_compute. repeat split; try (intros Hle; apply Hle; reflexivity).
Qed.

(** Away from the wrap-around the cursors do not decrease.  In every state
    the decorator reaches over a source held in memory (any contents of a
    length that fits in 64 bits, any failures), a read leaves [read_offset_]
    at least where it was, and so does a skip of [n] with
    [read_offset_ + n < 2^64].  For the adapter over any file, a read or a
    skip of [n] with [offset_ + n < 2^64] leaves [offset_] at least where it
    was. *)
Theorem cursor_never_decreases :
  (forall (content : list byte) (alignment : Z) (direct : bool)
          (faults : list Status) (readahead_size : Z)
          (st : t MemFile.t) (n : Z) (result : Slice),
     0 < alignment ->
     Slice_size content < SIZE_MOD ->
     Reachable
       (make (MemFile.mk content 0 alignment direct faults) readahead_size)
       st ->
     0 <= n < SIZE_MOD ->
     read_offset_ st <= read_offset_ (snd (Read n result st)) /\
     (read_offset_ st + n < SIZE_MOD ->
      read_offset_ st <= read_offset_ (snd (Skip n st)))) /\
  (forall (F : Type) (file : SequentialFile F)
          (r : SequentialFileReader.t F) (n : Z) (result : Slice),
     0 <= SequentialFileReader.offset_ r ->
     0 <= n ->
     SequentialFileReader.offset_ r + n < SIZE_MOD ->
     SequentialFileReader.offset_ r
     <= SequentialFileReader.offset_
          (snd (SequentialFileReader.Read n result r)) /\
     SequentialFileReader.offset_ r
     <= SequentialFileReader.offset_ (snd (SequentialFileReader.Skip n r))).
Proof.
  split.
  - intros content alignment direct faults readahead_size st n result
           Ha Hlen Hreach Hn.
    destruct (Reachable_Inv content alignment direct faults readahead_size
                st Ha Hlen Hreach) as (HInv & _ & _).
    split.
    + pose proof (Read_Inv content st n result HInv Hn) as Hstep.
      destruct (Read n result st) as [[[s res] calls] st'].
      cbn [snd]. destruct Hstep as (_ & Hmono & _). exact Hmono.
    + intros Hfit.
      pose proof (Skip_Inv content st n HInv ltac:(lia) Hfit) as Hstep.
      destruct (Skip n st) as [[s calls] st'].
      cbn [snd]. destruct Hstep as (_ & Hmono & _). exact Hmono.
  - intros F file r n result Hoff Hn Hfit.
    unfold SequentialFileReader.Read, SequentialFileReader.Skip.
    destruct (SequentialFileReader.use_direct_io r).
    + destruct (SequentialFileReader.aligned_range _ _ n)
        as [[aligned_offset offset_advance] size].
      destruct (file_PositionedRead aligned_offset size [] _)
        as [[s tmp] f'].
      cbn. rewrite wadd_small by lia. lia.
    + destruct (file_Read n result _) as [[s res] f'].
      destruct (file_Skip n _) as [s' f''].
      cbn. lia.
Qed.

Lemma cursor_never_decreases_witness :
  let st :=
    snd (Read 100 []
           (make (MemFile.mk (pattern 2000) 0 512 false [OK; IOError 5])
                 1000)) in
  let r :=
    SequentialFileReader.mk (MemFile.healthy (pattern 2000) 512 true) 1000 in
  (read_offset_ st <= read_offset_ (snd (Read 1000 [] st)) /\
   (read_offset_ st + 1000 < SIZE_MOD ->
    read_offset_ st <= read_offset_ (snd (Skip 1000 st)))) /\
  (SequentialFileReader.offset_ r
   <= SequentialFileReader.offset_
        (snd (SequentialFileReader.Read 100 [] r)) /\
   SequentialFileReader.offset_ r
   <= SequentialFileReader.offset_ (snd (SequentialFileReader.Skip 100 r))).
Proof.
  intros st r.
  assert (0 < 512) as Ha by lia.
  assert (Slice_size (pattern 2000) < SIZE_MOD) as Hlen
    by (vm_compute; reflexivity).
  assert (0 <= 100 < SIZE_MOD) as Hn by (unfold SIZE_MOD; lia).
  assert (0 <= 1000 < SIZE_MOD) as Hn' by (unfold SIZE_MOD; lia).
  assert (0 <= SequentialFileReader.offset_ r) as Hoff
    by (vm_compute; discriminate).
  assert (SequentialFileReader.offset_ r + 100 < SIZE_MOD) as Hfit
    by (vm_compute; reflexivity).
  split.
  - exact (proj1 cursor_never_decreases (pattern 2000) 512 false
             [OK; IOError 5] 1000 st 1000 [] Ha Hlen
             (Reachable_Read _ 100 [] _ (Reachable_init _) Hn) Hn').
  - exact (proj2 cursor_never_decreases MemFile.t MemFile_SequentialFile
             r 100 [] Hoff ltac:(lia) Hfit).
Defined.

(** ** The concrete scenario *)

(** C1: alignment 512, requested readahead size 1000, a 2000-byte source.
    The factory decorates the source and stores 1024.  [read(100)] makes
    one fill, of 1024 bytes, and returns the bytes [0, 100).  [read(500)]
    returns the bytes [100, 600) with no call on the source and the buffer
    untouched.  [read(1000)] finds the 424 bytes [600, 1024) in the cache,
    makes one bypass read of 576 bytes with the source at offset 1024,
    leaves the buffer cleared, and returns the 1000 bytes [600, 1600). *)
Theorem concrete_scenario :
  let source := MemFile.healthy (pattern 2000) 512 false in
  let st0 := make source 1000 in
  let '(s1, res1, calls1, st1) := Read 100 [] st0 in
  let '(s2, res2, calls2, st2) := Read 500 [] st1 in
  let '(_, cached_len, cached, _) := TryReadFromCache 1000 st2 in
  let '(s3, res3, calls3, st3) := Read 1000 [] st2 in
  NewReadaheadSequentialFile source 1000 = Decorated st0 /\
  readahead_size_ st0 = 1024 /\
  read_offset_ st0 = 0 /\
  (s1 = OK /\ calls1 = [Fill 1024] /\
   AlignedBuffer.CurrentSize (buffer_ st1) = 1024 /\
   buffer_offset_ st1 = 0 /\
   res1 = bytes_between 0 100 (pattern 2000)) /\
  (s2 = OK /\ calls2 = [] /\ buffer_ st2 = buffer_ st1 /\
   file_ st2 = file_ st1 /\
   res2 = bytes_between 100 600 (pattern 2000)) /\
  (cached_len = 424 /\ cached = bytes_between 600 1024 (pattern 2000)) /\
  (s3 = OK /\ calls3 = [Bypass 576] /\
   MemFile.position (file_ st2) = 1024 /\
   MemFile.position (file_ st3) = 1600 /\
   AlignedBuffer.CurrentSize (buffer_ st3) = 0 /\
   res3 = bytes_between 600 1600 (pattern 2000) /\
   Slice_size res3 = 1000 /\
   read_offset_ st3 = 1600).
Proof.
  vm_compute. repeat split.
Qed.

End OverMemFile.

(** * Further properties of the code *)

(** ** The direct-I/O adapter *)

Lemma Slice_size_sub_any (off len : Z) (l : list byte) :
  0 <= off ->
  Slice_size (sub off len l) = Z.max 0 (Z.min len (Slice_size l - off)).
Proof.
  intros Hoff. unfold Slice_size, sub.
  rewrite length_firstn, length_skipn. lia.
Qed.

Lemma aligned_range_facts (alignment offset n : Z) :
  0 < alignment -> 0 <= offset -> 0 <= n ->
  Roundup (offset + n) alignment < SIZE_MOD ->
  exists aligned_offset size,
    SequentialFileReader.aligned_range alignment offset n
    = (aligned_offset, offset - aligned_offset, size) /\
    0 <= aligned_offset <= offset /\
    offset + n <= aligned_offset + size < SIZE_MOD.
Proof.
  intros Ha Hoff Hn Hfit.
  unfold SequentialFileReader.aligned_range.
  pose proof (TruncateToPageBoundary_bounds alignment offset Ha) as Ht.
  pose proof (Roundup_bounds (offset + n) alignment Ha) as Hr.
  assert (0 <= TruncateToPageBoundary alignment offset) as Ht0.
  { unfold TruncateToPageBoundary.
    pose proof (Z.mod_le offset alignment Hoff Ha). lia. }
  rewrite (wadd_small offset n) by lia.
  rewrite !wsub_small by lia.
  eexists _, _. split; [reflexivity | lia].
Qed.

(** X1: under direct I/O a read of [n] always moves the logical offset by
    [n] (modulo [2^64]), whatever the positioned read returns; it returns
    the status of that positioned read, never more than [n] bytes, and no
    byte at all when the positioned read fails. *)
Theorem direct_read_consumes_request
  {F : Type} `{SequentialFile F}
  (r : SequentialFileReader.t F) (n : Z) (result : Slice) :
  SequentialFileReader.use_direct_io r = true ->
  0 <= n ->
  let '(aligned_offset, _, size) :=
    SequentialFileReader.aligned_range
      (GetRequiredBufferAlignment (SequentialFileReader.file_ r))
      (SequentialFileReader.offset_ r) n in
  let '(s0, _, f') :=
    file_PositionedRead aligned_offset size []
      (SequentialFileReader.file_ r) in
  let '(s, out, r') := SequentialFileReader.Read n result r in
  s = s0 /\
  SequentialFileReader.file_ r' = f' /\
  SequentialFileReader.offset_ r' = SequentialFileReader.offset_ r +w n /\
  Slice_size out <= n /\
  (ok s = false -> out = []).
Proof.
  intros Hdirect Hn. unfold SequentialFileReader.Read. rewrite Hdirect.
  destruct (SequentialFileReader.aligned_range _ _ n)
    as [[aligned_offset offset_advance] size] eqn:Hrange.
  destruct (file_PositionedRead aligned_offset size [] _)
    as [[s0 tmp] f'].
  assert (0 <= offset_advance) as Hadv.
  { unfold SequentialFileReader.aligned_range in Hrange.
    injection Hrange as _ <- _. apply wrap_range. }
  cbn [SequentialFileReader.file_ SequentialFileReader.offset_].
  repeat split.
  - destruct (ok s0 && _); [| change (Slice_size []) with 0; lia].
    unfold AlignedBuffer.Read, AlignedBuffer.Size, AlignedBuffer.store.
    cbn [AlignedBuffer.cursize AlignedBuffer.bufstart].
    destruct (offset_advance <? Slice_size tmp);
      [| change (Slice_size []) with 0; lia].
    rewrite Slice_size_sub_any by lia. lia.
  - intros Hs. rewrite Hs. reflexivity.
Qed.

Lemma direct_read_consumes_request_witness :
  let r :=
    SequentialFileReader.mk
      (MemFile.mk (pattern 2000) 0 512 true [IOError 9]) 1000 in
  let '(s, out, r') := SequentialFileReader.Read 100 [] r in
  s = IOError 9 /\
  SequentialFileReader.file_ r'
  = MemFile.mk (pattern 2000) 0 512 true [] /\
  SequentialFileReader.offset_ r' = 1000 +w 100 /\
  Slice_size out <= 100 /\
  (ok s = false -> out = []).
Proof.
  intros r.
  assert (0 <= 100) as Hn by lia.
  exact (direct_read_consumes_request r 100 [] eq_refl Hn).
Defined.

Section DirectOverMemFile.

#[local] Arguments wadd : simpl never.
#[local] Arguments wsub : simpl never.
#[local] Arguments sub : simpl never.
#[local] Arguments Roundup : simpl never.
#[local] Arguments Z.min : simpl never.
#[local] Arguments Z.max : simpl never.
#[local] Arguments SIZE_MOD : simpl never.

Lemma direct_Read_MemFile (content : list byte) (position alignment : Z)
  (offset n : Z) (result : Slice) :
  0 < alignment ->
  0 <= offset -> 0 <= n ->
  Roundup (offset + n) alignment < SIZE_MOD ->
  let file := MemFile.mk content position alignment true [] in
  SequentialFileReader.Read n result (SequentialFileReader.mk file offset)
  = (OK,
     sub offset (Z.min n (Slice_size content - offset)) content,
     SequentialFileReader.mk file (offset + n)).
Proof.
  intros Ha Hoff Hn Hfit file. subst file.
  destruct (aligned_range_facts alignment offset n Ha Hoff Hn Hfit)
    as (ao & size & Hrange & Hao & Hsize).
  pose proof (Roundup_bounds (offset + n) alignment Ha) as Hr.
  unfold SequentialFileReader.Read, SequentialFileReader.use_direct_io.
  cbn [SequentialFileReader.file_ SequentialFileReader.offset_
       file_use_direct_io GetRequiredBufferAlignment file_PositionedRead
       MemFile_SequentialFile MemFile.direct_io MemFile.required_alignment].
  rewrite Hrange.
  unfold MemFile.PositionedRead, MemFile.next_fault.
  cbn [MemFile.faults MemFile.contents ok andb].
  set (len := Slice_size content).
  set (k := Z.max 0 (Z.min size (len - ao))).
  assert (Slice_size (sub ao k content) = k) as Hk.
  { rewrite Slice_size_sub_any by lia. fold len. lia. }
  rewrite Hk. rewrite (wadd_small offset n) by lia.
  f_equal. f_equal.
  destruct (Z.ltb_spec (offset - ao) k) as [Hin | Hout].
  - rewrite wsub_small by lia.
    unfold AlignedBuffer.Read, AlignedBuffer.Size, AlignedBuffer.store.
    cbn [AlignedBuffer.cursize AlignedBuffer.bufstart].
    destruct (Z.ltb_spec (offset - ao) k); [| lia].
    rewrite sub_sub by lia.
    f_equal; lia.
  - rewrite sub_nil by lia. reflexivity.
Qed.

(** X2: over a source held in memory, with direct I/O and a power-of-two
    alignment, a read of [n] at logical offset [offset] succeeds and returns
    exactly the bytes [offset, offset + n) of the source, cut at its end
    (none when the offset is at or past the end), however the offset and
    the length lie with respect to the alignment. *)
Theorem direct_io_read_transparent (content : list byte)
  (position alignment offset n : Z) (result : Slice) :
  is_power_of_two alignment ->
  0 <= offset -> 0 <= n ->
  Roundup (offset + n) alignment < SIZE_MOD ->
  let file := MemFile.mk content position alignment true [] in
  let '(s, out, r') :=
    SequentialFileReader.Read n result
      (SequentialFileReader.mk file offset) in
  s = OK /\
  out = bytes_between offset (Z.min (offset + n) (Slice_size content))
          content /\
  SequentialFileReader.offset_ r' = offset + n.
Proof.
  intros Hpow Hoff Hn Hfit file.
  pose proof (power_of_two_pos _ Hpow) as Ha.
  unfold file.
  rewrite (direct_Read_MemFile content position alignment offset n result
             Ha Hoff Hn Hfit).
  cbn [SequentialFileReader.offset_].
  repeat split. unfold bytes_between. f_equal. lia.
Qed.

Lemma direct_io_read_transparent_witness :
  let file := MemFile.mk (pattern 2000) 0 512 true [] in
  let '(s, out, r') :=
    SequentialFileReader.Read 300 []
      (SequentialFileReader.mk file 1900) in
  s = OK /\
  out = bytes_between 1900 (Z.min (1900 + 300) (Slice_size (pattern 2000)))
          (pattern 2000) /\
  SequentialFileReader.offset_ r' = 1900 + 300.
Proof.
  assert (is_power_of_two 512) as Hpow
    by (exists 9; split; [lia | reflexivity]).
  assert (Roundup (1900 + 300) 512 < SIZE_MOD) as Hfit
    by (vm_compute; reflexivity).
  exact (direct_io_read_transparent (pattern 2000) 0 512 1900 300 []
           Hpow ltac:(lia) ltac:(lia) Hfit).
Defined.

End DirectOverMemFile.

Section DirectRuns.

#[local] Arguments wadd : simpl never.
#[local] Arguments wsub : simpl never.
#[local] Arguments sub : simpl never.
#[local] Arguments Roundup : simpl never.
#[local] Arguments Z.min : simpl never.
#[local] Arguments Z.max : simpl never.
#[local] Arguments SIZE_MOD : simpl never.







End DirectRuns.

(** ** The decorator over any wrapped file: paths and calls *)

Section AnyFileMore.
Context {F : Type} `{SequentialFile F}.
Import ReadaheadSequentialFile.

#[local] Arguments wadd : simpl never.
#[local] Arguments wsub : simpl never.
#[local] Arguments sub : simpl never.
#[local] Arguments Roundup : simpl never.
#[local] Arguments Z.min : simpl never.
#[local] Arguments Z.max : simpl never.
#[local] Arguments SIZE_MOD : simpl never.

Lemma Read_bypass_miss (n : Z) (result : Slice) (st : t F) :
  read_offset_ st < buffer_offset_ st
  \/ buffer_offset_ st +w AlignedBuffer.CurrentSize (buffer_ st)
     <= read_offset_ st ->
  0 <= n < SIZE_MOD ->
  readahead_size_ st <= n +w alignment_ st ->
  Read n result st
  = let '(s0, res0, f') := file_Read n result (file_ st) in
    (s0, res0, [Bypass n],
     with_buffer (AlignedBuffer.Clear (buffer_ st))
       (if ok s0
        then with_read_offset (read_offset_ st +w Slice_size res0)
               (with_file f' st)
        else with_file f' st)).
Proof.
  intros Hmiss Hn Hlarge. unfold Read.
  rewrite (TryReadFromCache_miss n st Hmiss). cbn [andb].
  rewrite wsub_small by lia. replace (n - 0) with n by lia.
  destruct (Z.leb_spec (readahead_size_ st) (n +w alignment_ st)); [| lia].
  destruct (file_Read n result (file_ st)) as [[s0 res0] f'].
  destruct (ok s0); reflexivity.
Qed.


Lemma Read_all_passes_through (ns : list Z) :
  forall st : t F,
    AlignedBuffer.CurrentSize (buffer_ st) = 0 ->
    0 <= buffer_offset_ st < SIZE_MOD ->
    0 <= alignment_ st ->
    readahead_size_ st <= alignment_ st ->
    Forall (fun n => 0 <= n /\ n + alignment_ st < SIZE_MOD) ns ->
    let '(outs, st') := Run.Read_all ns st in
    let '(outs0, f') := file_Read_all ns (file_ st) in
    outs = outs0 /\ file_ st' = f' /\
    AlignedBuffer.CurrentSize (buffer_ st') = 0.
Proof.
  induction ns as [| n ns IH]; intros st Hcur Hbo Ha Hra Hns.
  - cbn. auto.
  - inversion Hns as [| ? ? [Hn Hfit] Hns']; subst.
    cbn [Run.Read_all file_Read_all].
    rewrite Read_bypass_miss.
    2:{ rewrite Hcur, wadd_0_r by lia. lia. }
    2:{ lia. }
    2:{ rewrite wadd_small by lia. lia. }
    destruct (file_Read n [] (file_ st)) as [[s0 res0] f1].
    set (st1 := with_buffer _ _).
    assert (file_ st1 = f1) as Hf1 by (unfold st1; destruct (ok s0); reflexivity).
    assert (alignment_ st1 = alignment_ st) as Hal
      by (unfold st1; destruct (ok s0); reflexivity).
    specialize (IH st1).
    rewrite Hf1, Hal in IH.
    specialize (IH ltac:(unfold st1; destruct (ok s0); reflexivity)
                   ltac:(unfold st1; destruct (ok s0); exact Hbo)
                   Ha
                   ltac:(unfold st1; destruct (ok s0); exact Hra)
                   Hns').
    destruct (Run.Read_all ns st1) as [outs st2].
    destruct (file_Read_all ns f1) as [outs0 f2].
    destruct IH as (-> & Hf2 & Hcur2).
    repeat split; assumption.
Qed.

(** X6: a decorator built for a readahead size (a [size_t], so not
    negative) that does not exceed the alignment of the file never buffers
    anything: whatever reads follow,
    their statuses and results are those of the same reads made on the file
    itself, and the file ends in the same state.  This is the case in which
    the factory hands back the file undecorated. *)
Theorem small_readahead_passes_through
  (file : F) (readahead_size : Z) (ns : list Z) :
  0 < GetRequiredBufferAlignment file ->
  0 <= readahead_size ->
  readahead_size <= GetRequiredBufferAlignment file ->
  Forall (fun n => 0 <= n /\
                   n + GetRequiredBufferAlignment file < SIZE_MOD) ns ->
  let '(outs, st') := Run.Read_all ns (make file readahead_size) in
  let '(outs0, f') := file_Read_all ns file in
  outs = outs0 /\ file_ st' = f'.
Proof.
  intros Ha Hreq Hsmall Hns.
  pose proof (Read_all_passes_through ns (make file readahead_size)) as Hrun.
  cbn [make buffer_ buffer_offset_ alignment_ readahead_size_ file_
       AlignedBuffer.CurrentSize AlignedBuffer.AllocateNewBuffer
       AlignedBuffer.cursize] in Hrun.
  specialize (Hrun eq_refl ltac:(pose proof SIZE_MOD_pos; lia) ltac:(lia)).
  pose proof (Roundup_least readahead_size (GetRequiredBufferAlignment file)
                (GetRequiredBufferAlignment file) Ha (Z.divide_refl _)
                Hsmall) as Hle.
  pose proof (Roundup_bounds readahead_size (GetRequiredBufferAlignment file)
                Ha) as Hr.
  assert (wrap (Roundup readahead_size (GetRequiredBufferAlignment file))
          <= Roundup readahead_size (GetRequiredBufferAlignment file))
    as Hmod by (apply Z.mod_le; [lia | exact SIZE_MOD_pos]).
  specialize (Hrun ltac:(lia) Hns).
  destruct (Run.Read_all ns (make file readahead_size)) as [outs st'].
  destruct (file_Read_all ns file) as [outs0 f'].
  tauto.
Qed.

End AnyFileMore.

Section AnyFileMoreWitnesses.
Import ReadaheadSequentialFile.


Lemma small_readahead_passes_through_witness :
  let file := MemFile.mk (pattern 2000) 0 512 false [OK; IOError 3] in
  let '(outs, st') := Run.Read_all [100; 7; 1000; 0; 900] (make file 512) in
  let '(outs0, f') := file_Read_all [100; 7; 1000; 0; 900] file in
  outs = outs0 /\ file_ st' = f'.
Proof.
  assert (Forall (fun n => 0 <= n /\ n + 512 < SIZE_MOD)
                 [100; 7; 1000; 0; 900]) as Hns
    by (repeat constructor; unfold SIZE_MOD; lia).
  exact (small_readahead_passes_through
           (MemFile.mk (pattern 2000) 0 512 false [OK; IOError 3]) 512
           [100; 7; 1000; 0; 900] eq_refl ltac:(lia) ltac:(cbn; lia) Hns).
Defined.

End AnyFileMoreWitnesses.

Section AnyFileCalls.
Context {F : Type} `{SequentialFile F}.
Import ReadaheadSequentialFile.

#[local] Arguments wadd : simpl never.
#[local] Arguments wsub : simpl never.
#[local] Arguments sub : simpl never.
#[local] Arguments Roundup : simpl never.
#[local] Arguments Z.min : simpl never.
#[local] Arguments Z.max : simpl never.
#[local] Arguments SIZE_MOD : simpl never.

(** What a read may do to the buffer and which calls it may make. *)
Lemma Read_shape (n : Z) (result : Slice) (st : t F) :
  let '(s, res, calls, st') := Read n result st in
  alignment_ st' = alignment_ st /\
  readahead_size_ st' = readahead_size_ st /\
  AlignedBuffer.Capacity (buffer_ st') = AlignedBuffer.Capacity (buffer_ st) /\
  (calls = []
   \/ (exists m, calls = [Bypass m])
   \/ calls = [Fill (if AlignedBuffer.Capacity (buffer_ st)
                         <? readahead_size_ st
                      then AlignedBuffer.Capacity (buffer_ st)
                      else readahead_size_ st)]).
Proof.
  unfold Read, ReadIntoBuffer.
  pose proof (TryReadFromCache_keeps n st) as Hkeep.
  destruct (TryReadFromCache n st) as [[[hit cached_len] cached] st1].
  destruct Hkeep as (Hfile & Hbuf & Hbo & Hal & Hra).
  destruct (hit && _).
  - rewrite Hbuf. repeat split; auto.
  - destruct (readahead_size_ st1 <=? _).
    + destruct (file_Read _ result (file_ st1)) as [[s0 res0] f0].
      destruct (ok s0); cbn; rewrite Hbuf; repeat split; eauto.
    + destruct (file_Read _ [] (file_ st1)) as [[s0 res0] f0].
      destruct (ok s0) eqn:Hok; cbv beta iota zeta; rewrite Hok.
      * pose proof (TryReadFromCache_keeps (n -w cached_len)
                      (with_buffer
                         (AlignedBuffer.Size (Slice_size res0)
                            (AlignedBuffer.store res0
                               (buffer_ (with_file f0 st1))))
                         (with_buffer_offset
                            (read_offset_ (with_file f0 st1))
                            (with_file f0 st1)))) as Hkeep2.
        destruct (TryReadFromCache _ _) as [[[hit2 len2] rest] st2].
        destruct Hkeep2 as (_ & Hbuf2 & _ & Hal2 & Hra2).
        rewrite Hbuf2, Hal2, Hra2. cbn. rewrite Hbuf, Hra.
        repeat split; auto.
      * cbn. rewrite Hbuf, Hra. repeat split; auto.
Qed.

Lemma Skip_shape (n : Z) (st : t F) :
  let '(s, calls, st') := Skip n st in
  alignment_ st' = alignment_ st /\
  readahead_size_ st' = readahead_size_ st /\
  AlignedBuffer.Capacity (buffer_ st') = AlignedBuffer.Capacity (buffer_ st) /\
  (calls = [] \/ exists m, calls = [FwdSkip m]).
Proof.
  unfold Skip.
  destruct (0 <? AlignedBuffer.CurrentSize (buffer_ st));
    [destruct (_ <=? _) |]; cbv beta iota zeta;
    (destruct (0 <? _);
     [destruct (file_Skip _ _) as [s0 f0]; destruct (ok s0) |]);
    cbn; repeat split; eauto.
Qed.

Lemma wrap_divide (a x : Z) :
  is_power_of_two a -> (a | x) -> (a | wrap x).
Proof.
  intros [k [Hk ->]] Hdiv. unfold wrap.
  destruct (Z.le_gt_cases k 64) as [Hle | Hgt].
  - assert ((2 ^ k | SIZE_MOD)) as Hmod.
    { exists (2 ^ (64 - k)). unfold SIZE_MOD.
      rewrite <- Z.pow_add_r by lia. f_equal. lia. }
    rewrite Z.mod_eq by (pose proof SIZE_MOD_pos; lia).
    apply Z.divide_sub_r; [exact Hdiv |].
    apply Z.divide_mul_l. exact Hmod.
  - assert ((SIZE_MOD | 2 ^ k)) as Hmod.
    { exists (2 ^ (k - 64)). unfold SIZE_MOD.
      rewrite <- Z.pow_add_r by lia. f_equal. lia. }
    destruct (Z.divide_trans _ _ _ Hmod Hdiv) as [q ->].
    rewrite Z.mod_mul by (pose proof SIZE_MOD_pos; lia).
    apply Z.divide_0_r.
Qed.

Lemma Reachable_config (file : F) (readahead_size : Z) (st : t F) :
  Run.Reachable (make file readahead_size) st ->
  alignment_ st = GetRequiredBufferAlignment file /\
  readahead_size_ st
  = wrap (Roundup readahead_size (GetRequiredBufferAlignment file)) /\
  AlignedBuffer.Capacity (buffer_ st)
  = Roundup (wrap (Roundup readahead_size (GetRequiredBufferAlignment file)))
            (GetRequiredBufferAlignment file).
Proof.
  induction 1 as [| n result st Hreach IH Hn | n st Hreach IH Hn Hfit].
  - cbn. auto.
  - pose proof (Read_shape n result st) as Hshape.
    destruct (Read n result st) as [[[s res] calls] st']. cbn [snd].
    destruct Hshape as (-> & -> & -> & _). exact IH.
  - pose proof (Skip_shape n st) as Hshape.
    destruct (Skip n st) as [[s calls] st']. cbn [snd].
    destruct Hshape as (-> & -> & -> & _). exact IH.
Qed.

(** X7: the sector-alignment assertion of [ReadIntoBuffer] holds for
    every fill.  In every state a decorator reaches from its constructor,
    over a file whose alignment is a power of two, a fill asks the wrapped
    file for exactly [readahead_size_] bytes, which is the capacity of the
    buffer and a multiple of the alignment. *)
Theorem fill_requests_are_sector_aligned
  (file : F) (readahead_size : Z) (st : t F)
  (n : Z) (result : Slice) (m : Z) :
  is_power_of_two (GetRequiredBufferAlignment file) ->
  Run.Reachable (make file readahead_size) st ->
  let '(_, _, calls, _) := Read n result st in
  In (Fill m) calls ->
  IsFileSectorAligned m (alignment_ st) = true /\
  m = readahead_size_ st /\
  m = AlignedBuffer.Capacity (buffer_ st).
Proof.
  intros Hpow Hreach.
  pose proof (power_of_two_pos _ Hpow) as Ha.
  destruct (Reachable_config file readahead_size st Hreach)
    as (Hal & Hra & Hcap).
  pose proof (Read_shape n result st) as Hshape.
  destruct (Read n result st) as [[[s res] calls] st'].
  destruct Hshape as (_ & _ & _ & Hcalls).
  pose proof (wrap_divide _ _ Hpow
                (Roundup_divide readahead_size
                   (GetRequiredBufferAlignment file))) as Hdiv.
  rewrite (Roundup_multiple _ _ Ha Hdiv) in Hcap.
  intros Hin.
  assert (m = readahead_size_ st) as ->.
  { destruct Hcalls as [-> | [[m' ->] | ->]].
    - destruct Hin.
    - destruct Hin as [Hin | []]. discriminate Hin.
    - destruct Hin as [Hin | []]. injection Hin as <-.
      destruct (_ <? _); congruence. }
  split; [| split; [reflexivity | congruence]].
  unfold IsFileSectorAligned. rewrite Hal, Hra.
  destruct Hdiv as [q ->].
  rewrite Z.mod_mul by lia. reflexivity.
Qed.

(** X8: one operation, at most one call.  A read of the decorator calls
    the wrapped file at most once (one bypass read or one fill, never
    both), and a skip at most once. *)
Theorem one_call_per_operation (n : Z) (result : Slice) (st : t F) :
  (let '(_, _, calls, _) := Read n result st in
   calls = [] \/ (exists m, calls = [Bypass m])
   \/ (exists m, calls = [Fill m])) /\
  (let '(_, calls, _) := Skip n st in
   calls = [] \/ exists m, calls = [FwdSkip m]).
Proof.
  split.
  - pose proof (Read_shape n result st) as Hshape.
    destruct (Read n result st) as [[[s res] calls] st'].
    destruct Hshape as (_ & _ & _ & [-> | [[m ->] | ->]]); eauto.
  - pose proof (Skip_shape n st) as Hshape.
    destruct (Skip n st) as [[s calls] st'].
    tauto.
Qed.

(** X9: a read that lies entirely inside the buffered range is served
    from memory: it makes no call on the wrapped file, returns OK with the
    [n] bytes of the buffer at the read offset, and changes nothing but
    [read_offset_], which advances by [n]. *)
Theorem cached_read_makes_no_call (n : Z) (result : Slice) (st : t F) :
  let cur := AlignedBuffer.CurrentSize (buffer_ st) in
  0 <= buffer_offset_ st <= read_offset_ st ->
  read_offset_ st < buffer_offset_ st + cur ->
  buffer_offset_ st + cur < SIZE_MOD ->
  0 <= n ->
  read_offset_ st + n <= buffer_offset_ st + cur ->
  Read n result st
  = (OK,
     sub (read_offset_ st - buffer_offset_ st) n
         (AlignedBuffer.BufferStart (buffer_ st)),
     [],
     with_read_offset (read_offset_ st + n) st).
Proof.
  intros cur Hlo Hhi Hfit Hn Hinside. unfold Read.
  rewrite TryReadFromCache_hit by assumption.
  fold cur.
  replace (Z.min (buffer_offset_ st + cur - read_offset_ st) n) with n
    by lia.
  rewrite Z.eqb_refl. reflexivity.
Qed.

(** X10: a skip that stays inside the buffered range moves only
    [read_offset_]: no call on the wrapped file, the buffer kept. *)
Theorem skip_inside_buffer (n : Z) (st : t F) :
  let cur := AlignedBuffer.CurrentSize (buffer_ st) in
  0 < cur ->
  0 <= buffer_offset_ st -> 0 <= read_offset_ st -> 0 <= n ->
  read_offset_ st + n < buffer_offset_ st + cur ->
  buffer_offset_ st + cur < SIZE_MOD ->
  Skip n st = (OK, [], with_read_offset (read_offset_ st + n) st).
Proof.
  intros cur Hcur Hbo Hro Hn Hinside Hfit. unfold Skip. fold cur.
  destruct (Z.ltb_spec 0 cur); [| lia].
  rewrite (wadd_small (buffer_offset_ st) cur) by lia.
  rewrite (wadd_small (read_offset_ st) n) by lia.
  destruct (Z.leb_spec (buffer_offset_ st + cur) (read_offset_ st + n));
    [lia |].
  reflexivity.
Qed.

(** X11: when a skip of the decorator returns a status that is not OK, it
    is the status of the one call made on the wrapped file, for the part
    of the skip the buffer did not cover.  The buffered part of the skip
    is not undone: [read_offset_] is left at the end of the buffered range
    (or where it was, if the buffer was empty), and the buffer is
    cleared. *)
Theorem skip_failure_outcome (n : Z) (st : t F)
  (s : Status) (calls : list Call) (st' : t F) :
  Skip n st = (s, calls, st') ->
  ok s = false ->
  let cur := AlignedBuffer.CurrentSize (buffer_ st) in
  exists m f',
    file_Skip m (file_ st) = (s, f') /\
    calls = [FwdSkip m] /\
    m = (if 0 <? cur
         then n -w (buffer_offset_ st +w cur -w read_offset_ st)
         else n) /\
    file_ st' = f' /\
    AlignedBuffer.CurrentSize (buffer_ st') = 0 /\
    read_offset_ st'
    = (if 0 <? cur then buffer_offset_ st +w cur else read_offset_ st).
Proof.
  intros Hskip Hs cur. revert Hskip. unfold Skip. fold cur.
  destruct (0 <? cur).
  - destruct (_ <=? _); cbn.
    + destruct (0 <? _).
      * destruct (file_Skip _ (file_ st)) as [s0 f0] eqn:Hcall.
        destruct (ok s0) eqn:Hok; intros [= <- <- <-].
        -- congruence.
        -- eexists _, f0. cbn. repeat split. exact Hcall.
      * intros [= <- <- <-]. discriminate Hs.
    + intros [= <- <- <-]. discriminate Hs.
  - destruct (0 <? n).
    + destruct (file_Skip n (file_ st)) as [s0 f0] eqn:Hcall.
      destruct (ok s0) eqn:Hok; intros [= <- <- <-].
      * congruence.
      * eexists n, f0. cbn. repeat split. exact Hcall.
    + intros [= <- <- <-]. discriminate Hs.
Qed.

(** X12: [InvalidateCache] empties the buffer whatever status the wrapped
    file returns, returns that status, and leaves the offsets alone; the
    read that follows is never served from memory: it makes exactly one
    call on the wrapped file. *)
Theorem invalidate_forces_source_read
  (offset length : Z) (st : t F) (n : Z) (result : Slice) :
  0 <= buffer_offset_ st < SIZE_MOD ->
  let '(s0, f') := file_InvalidateCache offset length (file_ st) in
  let '(s, st') := InvalidateCache offset length st in
  s = s0 /\ file_ st' = f' /\
  AlignedBuffer.CurrentSize (buffer_ st') = 0 /\
  read_offset_ st' = read_offset_ st /\
  buffer_offset_ st' = buffer_offset_ st /\
  let '(_, _, calls, _) := Read n result st' in
  (exists m, calls = [Bypass m]) \/ (exists m, calls = [Fill m]).
Proof.
  intros Hbo. unfold InvalidateCache.
  cbn [file_ with_buffer].
  destruct (file_InvalidateCache offset length (file_ st)) as [s0 f'].
  cbn. repeat split.
  set (st' := with_file f' _).
  unfold Read, ReadIntoBuffer.
  rewrite (TryReadFromCache_miss n st').
  2:{ unfold st'. cbn. rewrite wadd_0_r by lia. lia. }
  cbn [andb].
  destruct (readahead_size_ st' <=? _).
  - destruct (file_Read _ result (file_ st')) as [[s1 res1] f1].
    destruct (ok s1); eauto.
  - destruct (file_Read _ [] (file_ st')) as [[s1 res1] f1].
    destruct (ok s1) eqn:Hok; cbv beta iota zeta; rewrite Hok.
    + destruct (TryReadFromCache _ _) as [[[hit2 len2] rest] st2]. eauto.
    + eauto.
Qed.

End AnyFileCalls.

Section AnyFileCallsWitnesses.
Import ReadaheadSequentialFile.

Lemma fill_requests_are_sector_aligned_witness :
  let file := MemFile.healthy (pattern 2000) 512 false in
  let st := snd (Skip 950 (snd (Read 100 [] (make file 1000)))) in
  IsFileSectorAligned 1024 (alignment_ st) = true /\
  1024 = readahead_size_ st /\
  1024 = AlignedBuffer.Capacity (buffer_ st).
Proof.
  intros file st.
  assert (0 <= 100 < SIZE_MOD) as Hn by (unfold SIZE_MOD; lia).
  assert (read_offset_ (snd (Read 100 [] (make file 1000))) + 950
          < SIZE_MOD) as Hfit by (vm_compute; reflexivity).
  assert (is_power_of_two (GetRequiredBufferAlignment file)) as Hpow
    by (exists 9; split; [lia | reflexivity]).
  pose proof (fill_requests_are_sector_aligned file 1000 st 10 [] 1024
                Hpow
                (Run.Reachable_Skip _ 950 _
                   (Run.Reachable_Read _ 100 [] _ (Run.Reachable_init _) Hn)
                   ltac:(lia) Hfit)) as Hfill.
  destruct (Read 10 [] st) as [[[s res] calls] st'] eqn:Hread.
  assert (calls = [Fill 1024]) as ->.
  { pose proof Hread as Hrun. vm_compute in Hrun.
    injection Hrun as _ _ <- _. reflexivity. }
  exact (Hfill (or_introl eq_refl)).
Defined.

Lemma cached_read_makes_no_call_witness :
  let st :=
    snd (Read 100 [] (make (MemFile.healthy (pattern 2000) 512 false) 1000))
  in
  Read 500 [] st
  = (OK,
     sub (read_offset_ st - buffer_offset_ st) 500
         (AlignedBuffer.BufferStart (buffer_ st)),
     [],
     with_read_offset (read_offset_ st + 500) st).
Proof.
  intros st.
  assert (0 <= buffer_offset_ st <= read_offset_ st) as Hlo
    by (vm_compute; split; discriminate).
  assert (read_offset_ st
          < buffer_offset_ st + AlignedBuffer.CurrentSize (buffer_ st))
    as Hhi by (vm_compute; reflexivity).
  assert (buffer_offset_ st + AlignedBuffer.CurrentSize (buffer_ st)
          < SIZE_MOD) as Hfit by (vm_compute; reflexivity).
  assert (read_offset_ st + 500
          <= buffer_offset_ st + AlignedBuffer.CurrentSize (buffer_ st))
    as Hinside by (vm_compute; discriminate).
  exact (cached_read_makes_no_call 500 [] st Hlo Hhi Hfit ltac:(lia)
           Hinside).
Defined.

Lemma skip_inside_buffer_witness :
  let st :=
    snd (Read 100 [] (make (MemFile.healthy (pattern 2000) 512 false) 1000))
  in
  Skip 200 st = (OK, [], with_read_offset (read_offset_ st + 200) st).
Proof.
  intros st.
  assert (0 < AlignedBuffer.CurrentSize (buffer_ st)) as Hcur
    by (vm_compute; reflexivity).
  assert (0 <= buffer_offset_ st) as Hbo by (vm_compute; discriminate).
  assert (0 <= read_offset_ st) as Hro by (vm_compute; discriminate).
  assert (read_offset_ st + 200
          < buffer_offset_ st + AlignedBuffer.CurrentSize (buffer_ st))
    as Hinside by (vm_compute; reflexivity).
  assert (buffer_offset_ st + AlignedBuffer.CurrentSize (buffer_ st)
          < SIZE_MOD) as Hfit by (vm_compute; reflexivity).
  exact (skip_inside_buffer 200 st Hcur Hbo Hro ltac:(lia) Hinside Hfit).
Defined.

Lemma skip_failure_outcome_witness :
  let st :=
    snd (Read 100 []
           (make (MemFile.mk (pattern 2000) 0 512 false [OK; IOError 4])
                 1000)) in
  let '(s, calls, st') := Skip 1500 st in
  ok s = false /\
  let cur := AlignedBuffer.CurrentSize (buffer_ st) in
  exists m f',
    file_Skip m (file_ st) = (s, f') /\
    calls = [FwdSkip m] /\
    m = (if 0 <? cur
         then 1500 -w (buffer_offset_ st +w cur -w read_offset_ st)
         else 1500) /\
    file_ st' = f' /\
    AlignedBuffer.CurrentSize (buffer_ st') = 0 /\
    read_offset_ st'
    = (if 0 <? cur then buffer_offset_ st +w cur else read_offset_ st).
Proof.
  intros st.
  destruct (Skip 1500 st) as [[s calls] st'] eqn:Hskip.
  assert (ok s = false) as Hs.
  { pose proof Hskip as Hrun. vm_compute in Hrun.
    injection Hrun as <- _ _. reflexivity. }
  split; [exact Hs |].
  exact (skip_failure_outcome 1500 st s calls st' Hskip Hs).
Defined.

Lemma invalidate_forces_source_read_witness :
  let st :=
    snd (Read 100 [] (make (MemFile.healthy (pattern 2000) 512 false) 1000))
  in
  let '(s0, f') := file_InvalidateCache 0 0 (file_ st) in
  let '(s, st') := InvalidateCache 0 0 st in
  s = s0 /\ file_ st' = f' /\
  AlignedBuffer.CurrentSize (buffer_ st') = 0 /\
  read_offset_ st' = read_offset_ st /\
  buffer_offset_ st' = buffer_offset_ st /\
  let '(_, _, calls, _) := Read 10 [] st' in
  (exists m, calls = [Bypass m]) \/ (exists m, calls = [Fill m]).
Proof.
  intros st.
  assert (0 <= buffer_offset_ st < SIZE_MOD) as Hbo
    by (vm_compute; split; [discriminate | reflexivity]).
  exact (invalidate_forces_source_read 0 0 st 10 [] Hbo).
Defined.

End AnyFileCallsWitnesses.

(** ** The decorator over a source held in memory: what a caller gets *)

Section OverMemFileMore.
Import ReadaheadSequentialFile Run.

#[local] Arguments wadd : simpl never.
#[local] Arguments wsub : simpl never.
#[local] Arguments sub : simpl never.
#[local] Arguments Roundup : simpl never.
#[local] Arguments Z.min : simpl never.
#[local] Arguments Z.max : simpl never.
#[local] Arguments SIZE_MOD : simpl never.

(** X13: over a healthy source, in every state the decorator reaches, a
    read succeeds and never returns more than [n] bytes; the bytes are
    those of the source at the place the previous operations left off, and
    the bytes still available go down by what was returned.  Unless [n] is
    within one alignment of [2^64], the read is short only at the end of
    the source: it returns [min n available] bytes, none at all, still with
    status OK, once the source is used up. *)
Theorem read_returns_what_is_available (content : list byte)
  (alignment : Z) (direct : bool) (readahead_size : Z)
  (st : t MemFile.t) (n : Z) (result : Slice) :
  0 < alignment ->
  Slice_size content < SIZE_MOD ->
  Reachable (make (MemFile.healthy content alignment direct) readahead_size)
            st ->
  0 <= n < SIZE_MOD ->
  let len := Slice_size content in
  let '(s, res, _, st') := Read n result st in
  s = OK /\
  Slice_size res <= n /\
  res = bytes_between (len - available st) (len - available st') content /\
  available st' = available st - Slice_size res /\
  (n + alignment < SIZE_MOD -> Slice_size res = Z.min n (available st)).
Proof.
  intros Ha Hlen Hreach Hn len.
  destruct (Reachable_Inv content alignment direct [] readahead_size st
              Ha Hlen Hreach) as (HInv & Hal & Hnf).
  specialize (Hnf eq_refl).
  pose proof (available_cursor content st HInv) as Hav.
  pose proof (cursor_range content st HInv) as Hcur.
  pose proof (Read_Inv content st n result HInv Hn) as Hread.
  destruct (Read n result st) as [[[s res] calls] st'].
  destruct Hread as (HInv' & _ & _ & _ & Hok).
  destruct (Hok Hnf) as (-> & _ & m & Hm & Hfit & -> & Hcur' & Hexact).
  pose proof (available_cursor content st' HInv') as Hav'.
  fold len in Hav, Hav', Hcur, Hfit, Hexact.
  rewrite Slice_size_sub by (fold len; lia).
  rewrite Hal in Hexact.
  repeat split; try lia.
  unfold bytes_between. f_equal; lia.
Qed.

Lemma read_returns_what_is_available_witness :
  let content := pattern 2000 in
  let st :=
    snd (Read 1500 [] (make (MemFile.healthy content 512 false) 1000)) in
  let len := Slice_size content in
  let '(s, res, _, st') := Read 700 [] st in
  s = OK /\
  Slice_size res <= 700 /\
  res = bytes_between (len - available st) (len - available st') content /\
  available st' = available st - Slice_size res /\
  (700 + 512 < SIZE_MOD -> Slice_size res = Z.min 700 (available st)).
Proof.
  intros content st.
  assert (Slice_size content < SIZE_MOD) as Hlen
    by (vm_compute; reflexivity).
  assert (0 <= 1500 < SIZE_MOD) as Hn by (unfold SIZE_MOD; lia).
  assert (0 <= 700 < SIZE_MOD) as Hn' by (unfold SIZE_MOD; lia).
  exact (read_returns_what_is_available content 512 false 1000 st 700 []
           ltac:(lia) Hlen
           (Reachable_Read _ 1500 [] _ (Reachable_init _) Hn) Hn').
Defined.

Lemma Skip_cursor (content : list byte) (st : t MemFile.t) (k : Z) :
  Inv content st ->
  MemFile.faults (file_ st) = [] ->
  0 <= k -> read_offset_ st + k < SIZE_MOD ->
  let '(s, _, st') := Skip k st in
  s = OK /\ cursor st' = Z.min (cursor st + k) (Slice_size content).
Proof.
  intros HInv Hnf Hk Hfit.
  destruct st as [f a ra [ba cap cur data] bo ro].
  destruct HInv as [Hc Hlen Hpos Hro Hbo Hcur Hbuf Hsync Heof Ha Hcap].
  unfold cursor. cbn in *.
  set (pos := MemFile.position f) in *.
  set (len := Slice_size content) in *.
  assert (0 <= MemFile.position f <= Slice_size (MemFile.contents f))
    as Hpos' by (rewrite Hc; exact Hpos).
  unfold Skip. cbn.
  assert (forall n1 ro1,
            0 < n1 ->
            let '(s, _, st') :=
              let '(s, f') := MemFile.Skip n1 f in
              (s, [FwdSkip n1],
               with_buffer
                 (AlignedBuffer.Clear
                    (buffer_
                       (if ok s
                        then with_read_offset (ro1 +w n1)
                               (mk f' a ra
                                   (AlignedBuffer.mk ba cap cur data) bo ro1)
                        else mk f' a ra
                               (AlignedBuffer.mk ba cap cur data) bo ro1)))
                 (if ok s
                  then with_read_offset (ro1 +w n1)
                         (mk f' a ra (AlignedBuffer.mk ba cap cur data)
                             bo ro1)
                  else mk f' a ra (AlignedBuffer.mk ba cap cur data)
                          bo ro1)) in
            s = OK /\
            (if 0 <? AlignedBuffer.CurrentSize (buffer_ st')
             then read_offset_ st'
             else MemFile.position (file_ st'))
            = Z.min (pos + n1) len) as Hforward.
  { intros n1 ro1 Hn1.
    destruct (MemFile_Skip_outcome n1 f Hpos' ltac:(lia))
      as (s & f' & Heq & Hcont & Hfaults & Hcase).
    rewrite Heq. unfold MemFile.remaining in Hcase.
    rewrite Hc in Hcase. fold pos len in Hcase.
    destruct (Hfaults Hnf) as [-> _].
    destruct Hcase as [(_ & Hp) | (Hs & _)]; [| discriminate Hs].
    cbn. rewrite Hp. split; [reflexivity | lia]. }
  destruct (Z.ltb_spec 0 cur) as [Hfull | Hempty].
  - destruct (Hbuf Hfull) as (Hbo0 & Hend & Hrange & Hdata).
    rewrite (wadd_small bo cur) by lia. rewrite (wadd_small ro k) by lia.
    rewrite Hend. fold pos.
    destruct (Z.leb_spec pos (ro + k)) as [Hpast | Hinside].
    + rewrite (wsub_small pos ro) by lia.
      rewrite (wsub_small k) by lia.
      cbn.
      destruct (Z.ltb_spec 0 (k - (pos - ro))) as [Hmore | Hdone].
      * specialize (Hforward (k - (pos - ro)) pos Hmore).
        replace (pos + (k - (pos - ro))) with (ro + k) in Hforward by lia.
        exact Hforward.
      * cbn. destruct (Z.ltb_spec 0 cur); [| lia].
        split; [reflexivity | lia].
    + cbn. destruct (Z.ltb_spec 0 cur); [| lia].
      split; [reflexivity | lia].
  - destruct (Z.ltb_spec 0 k) as [Hmore | Hdone].
    + exact (Hforward k ro Hmore).
    + cbn. destruct (Z.ltb_spec 0 cur); [lia |].
      split; [reflexivity | fold pos; lia].
Qed.

(** X14: over a healthy source, in every state the decorator reaches, a
    skip of [k] (one that does not take [read_offset_] past [2^64 - 1])
    succeeds and uses up [k] of the bytes available, or all of them if
    fewer are left: skipping past the end of the source is not an error.
    After a skip that used up everything, every read returns OK with no
    bytes. *)
Theorem skip_consumes_available (content : list byte)
  (alignment : Z) (direct : bool) (readahead_size : Z)
  (st : t MemFile.t) (k : Z) :
  0 < alignment ->
  Slice_size content < SIZE_MOD ->
  Reachable (make (MemFile.healthy content alignment direct) readahead_size)
            st ->
  0 <= k -> read_offset_ st + k < SIZE_MOD ->
  let '(s, _, st') := Skip k st in
  s = OK /\
  available st' = Z.max 0 (available st - k) /\
  (available st <= k ->
   forall n result, 0 <= n < SIZE_MOD ->
     let '(s2, res2, _, _) := Read n result st' in
     s2 = OK /\ res2 = []).
Proof.
  intros Ha Hlen Hreach Hk Hfit.
  destruct (Reachable_Inv content alignment direct [] readahead_size st
              Ha Hlen Hreach) as (HInv & Hal & Hnf).
  specialize (Hnf eq_refl).
  pose proof (available_cursor content st HInv) as Hav.
  pose proof (cursor_range content st HInv) as Hcur.
  pose proof (Skip_Inv content st k HInv Hk Hfit) as Hinv.
  pose proof (Skip_cursor content st k HInv Hnf Hk Hfit) as Hskip.
  destruct (Skip k st) as [[s calls] st'].
  destruct Hinv as (HInv' & _ & _ & _ & Hok).
  destruct (Hok Hnf) as (_ & Hnf' & _).
  destruct Hskip as (-> & Hcur').
  pose proof (available_cursor content st' HInv') as Hav'.
  split; [reflexivity |]. split; [lia |].
  intros Hall n result Hn.
  pose proof (Read_Inv content st' n result HInv' Hn) as Hread.
  destruct (Read n result st') as [[[s2 res2] calls2] st2].
  destruct Hread as (_ & _ & _ & _ & Hok2).
  destruct (Hok2 Hnf') as (-> & _ & m & Hm & Hfit2 & -> & _).
  split; [reflexivity |]. apply sub_nil. lia.
Qed.

Lemma skip_consumes_available_witness :
  let content := pattern 2000 in
  let st :=
    snd (Read 100 [] (make (MemFile.healthy content 512 false) 1000)) in
  let '(s, _, st') := Skip 5000 st in
  s = OK /\
  available st' = Z.max 0 (available st - 5000) /\
  (available st <= 5000 ->
   forall n result, 0 <= n < SIZE_MOD ->
     let '(s2, res2, _, _) := Read n result st' in
     s2 = OK /\ res2 = []).
Proof.
  intros content st.
  assert (Slice_size content < SIZE_MOD) as Hlen
    by (vm_compute; reflexivity).
  assert (0 <= 100 < SIZE_MOD) as Hn by (unfold SIZE_MOD; lia).
  assert (read_offset_ st + 5000 < SIZE_MOD) as Hfit
    by (vm_compute; reflexivity).
  exact (skip_consumes_available content 512 false 1000 st 5000
           ltac:(lia) Hlen
           (Reachable_Read _ 100 [] _ (Reachable_init _) Hn)
           ltac:(lia) Hfit).
Defined.

End OverMemFileMore.

(** ** The buffer stays within its capacity *)

Section BufferBound.
Import ReadaheadSequentialFile Run.

#[local] Arguments wadd : simpl never.
#[local] Arguments wsub : simpl never.
#[local] Arguments sub : simpl never.
#[local] Arguments Roundup : simpl never.
#[local] Arguments Z.min : simpl never.
#[local] Arguments Z.max : simpl never.
#[local] Arguments SIZE_MOD : simpl never.

Lemma Read_cursize_cases {F : Type} `{SequentialFile F}
  (n : Z) (result : Slice) (st : t F) :
  let '(_, _, _, st') := Read n result st in
  AlignedBuffer.CurrentSize (buffer_ st')
  = AlignedBuffer.CurrentSize (buffer_ st)
  \/ AlignedBuffer.CurrentSize (buffer_ st') = 0
  \/ exists s res f',
       file_Read (if AlignedBuffer.Capacity (buffer_ st)
                     <? readahead_size_ st
                  then AlignedBuffer.Capacity (buffer_ st)
                  else readahead_size_ st) [] (file_ st) = (s, res, f') /\
       AlignedBuffer.CurrentSize (buffer_ st') = Slice_size res.
Proof.
  unfold Read, ReadIntoBuffer.
  pose proof (TryReadFromCache_keeps n st) as Hkeep.
  destruct (TryReadFromCache n st) as [[[hit cached_len] cached] st1].
  destruct Hkeep as (Hfile & Hbuf & Hbo & Hal & Hra).
  destruct (hit && _).
  - rewrite Hbuf. auto.
  - destruct (readahead_size_ st1 <=? _).
    + destruct (file_Read _ result (file_ st1)) as [[s0 res0] f0].
      destruct (ok s0); cbn; auto.
    + rewrite Hfile, Hbuf, Hra.
      destruct (file_Read _ [] (file_ st)) as [[s0 res0] f0] eqn:Hcall.
      destruct (ok s0) eqn:Hok; cbv beta iota zeta; rewrite Hok.
      * pose proof (TryReadFromCache_keeps (n -w cached_len)
                      (with_buffer
                         (AlignedBuffer.Size (Slice_size res0)
                            (AlignedBuffer.store res0
                               (buffer_ (with_file f0 st1))))
                         (with_buffer_offset
                            (read_offset_ (with_file f0 st1))
                            (with_file f0 st1)))) as Hkeep2.
        destruct (TryReadFromCache _ _) as [[[hit2 len2] rest] st2].
        destruct Hkeep2 as (_ & Hbuf2 & _).
        rewrite Hbuf2. right. right. exists s0, res0, f0.
        split; [reflexivity | reflexivity].
      * cbn. rewrite Hbuf. auto.
Qed.

Lemma Skip_cursize_cases {F : Type} `{SequentialFile F}
  (n : Z) (st : t F) :
  let '(_, _, st') := Skip n st in
  AlignedBuffer.CurrentSize (buffer_ st')
  = AlignedBuffer.CurrentSize (buffer_ st)
  \/ AlignedBuffer.CurrentSize (buffer_ st') = 0.
Proof.
  unfold Skip.
  destruct (0 <? AlignedBuffer.CurrentSize (buffer_ st));
    [destruct (_ <=? _) |]; cbv beta iota zeta;
    (destruct (0 <? _);
     [destruct (file_Skip _ _) as [s0 f0]; destruct (ok s0) |]);
    cbn; auto.
Qed.

Lemma Reachable_bounded (content : list byte) (alignment : Z)
  (direct : bool) (faults : list Status) (readahead_size : Z)
  (st : t MemFile.t) :
  0 < alignment -> Slice_size content < SIZE_MOD ->
  Reachable
    (make (MemFile.mk content 0 alignment direct faults) readahead_size)
    st ->
  0 <= readahead_size_ st /\
  readahead_size_ st <= AlignedBuffer.Capacity (buffer_ st) /\
  (is_power_of_two alignment ->
   AlignedBuffer.Capacity (buffer_ st) = readahead_size_ st) /\
  AlignedBuffer.CurrentSize (buffer_ st) <= readahead_size_ st.
Proof.
  intros Ha Hlen Hreach.
  set (R := wrap (Roundup readahead_size alignment)).
  pose proof (wrap_range (Roundup readahead_size alignment)) as HR.
  fold R in HR.
  pose proof (Roundup_bounds R alignment Ha) as Hcapb.
  assert (forall st0,
            Reachable
              (make (MemFile.mk content 0 alignment direct faults)
                    readahead_size) st0 ->
            readahead_size_ st0 = R /\
            AlignedBuffer.Capacity (buffer_ st0) = Roundup R alignment)
    as Hconfig.
  { intros st0 Hreach0.
    destruct (Reachable_config _ _ _ Hreach0) as (_ & Hra & Hcap).
    cbn [GetRequiredBufferAlignment MemFile_SequentialFile
         MemFile.required_alignment] in Hra, Hcap.
    split; assumption. }
  destruct (Hconfig st Hreach) as (Hra & Hcap).
  split; [lia |]. split; [lia |]. split.
  { intros Hpow. rewrite Hra, Hcap.
    apply Roundup_multiple; [exact Ha |].
    apply wrap_divide; [exact Hpow | apply Roundup_divide]. }
  clear Hra Hcap.
  induction Hreach as [| n result st Hreach IH Hn | n st Hreach IH Hn Hfit].
  - cbn. fold R. lia.
  - destruct (Hconfig st Hreach) as (Hra0 & Hcap0).
    destruct (Hconfig _ (Reachable_Read _ n result st Hreach Hn))
      as (Hra & _).
    destruct (Reachable_Inv content alignment direct faults readahead_size
                st Ha Hlen Hreach) as (HInv & _ & _).
    pose proof (Read_cursize_cases n result st) as Hcases.
    destruct (Read n result st) as [[[s res] calls] st'].
    cbn [snd] in *.
    destruct Hcases as [-> | [-> | (s0 & res0 & f0 & Hcall & ->)]];
      [lia | lia |].
    rewrite Hcap0, Hra0 in Hcall. rewrite Hra.
    destruct (Z.ltb_spec (Roundup R alignment) R); [lia |].
    destruct HInv as [Hc _ Hpos _ _ _ _ _ _ _ _].
    destruct (MemFile_Read_outcome R [] (file_ st)
                ltac:(rewrite Hc; exact Hpos) ltac:(lia))
      as (s1 & res1 & f1 & Heq & _ & _ & Hcase).
    change (file_Read R [] (file_ st))
      with (MemFile.Read R [] (file_ st)) in Hcall.
    rewrite Heq in Hcall. injection Hcall as <- <- <-.
    destruct Hcase as [(_ & -> & _) | (_ & -> & _)].
    + rewrite Slice_size_sub_any by lia. lia.
    + change (Slice_size []) with 0. lia.
  - destruct (Hconfig st Hreach) as (Hra0 & Hcap0).
    destruct (Hconfig _ (Reachable_Skip _ n st Hreach Hn Hfit))
      as (Hra & _).
    pose proof (Skip_cursize_cases n st) as Hcases.
    destruct (Skip n st) as [[s calls] st'].
    cbn [snd] in *.
    destruct Hcases as [-> | ->]; lia.
Qed.

(** X15: over a source held in memory, whatever it holds and however it
    fails, the decorator keeps its buffer within bounds in every state it
    reaches: the valid size lies between 0 and [readahead_size_], which
    does not exceed the capacity (and is the capacity when the alignment is
    a power of two), and while the buffer holds bytes the bytes stored by
    the last fill are as many as the valid size, so that a copy from the
    cache never reads past them. *)
Theorem buffer_within_capacity (content : list byte) (alignment : Z)
  (direct : bool) (faults : list Status) (readahead_size : Z)
  (st : t MemFile.t) :
  0 < alignment -> Slice_size content < SIZE_MOD ->
  Reachable
    (make (MemFile.mk content 0 alignment direct faults) readahead_size)
    st ->
  0 <= AlignedBuffer.CurrentSize (buffer_ st) <= readahead_size_ st /\
  readahead_size_ st <= AlignedBuffer.Capacity (buffer_ st) /\
  (is_power_of_two alignment ->
   AlignedBuffer.Capacity (buffer_ st) = readahead_size_ st) /\
  (0 < AlignedBuffer.CurrentSize (buffer_ st) ->
   Slice_size (AlignedBuffer.BufferStart (buffer_ st))
   = AlignedBuffer.CurrentSize (buffer_ st)).
Proof.
  intros Ha Hlen Hreach.
  destruct (Reachable_bounded content alignment direct faults readahead_size
              st Ha Hlen Hreach) as (Hra & Hcap & Hpow & Hcur).
  destruct (Reachable_Inv content alignment direct faults readahead_size
              st Ha Hlen Hreach) as (HInv & _ & _).
  destruct HInv as [Hc _ Hpos _ _ Hcur0 Hbuf _ _ _ _].
  split; [lia |]. split; [exact Hcap |]. split; [exact Hpow |].
  intros Hfull. destruct (Hbuf Hfull) as (Hbo & Hend & _ & ->).
  apply Slice_size_sub; lia.
Qed.

Lemma buffer_within_capacity_witness :
  let st :=
    snd (Read 10 []
           (snd (Skip 200
                   (snd (Read 100 []
                           (make (MemFile.mk (pattern 2000) 0 512 false
                                             [OK; IOError 2])
                                 1000)))))) in
  AlignedBuffer.CurrentSize (buffer_ st) = 1024 /\
  0 <= AlignedBuffer.CurrentSize (buffer_ st) <= readahead_size_ st /\
  readahead_size_ st <= AlignedBuffer.Capacity (buffer_ st) /\
  AlignedBuffer.Capacity (buffer_ st) = readahead_size_ st /\
  Slice_size (AlignedBuffer.BufferStart (buffer_ st))
  = AlignedBuffer.CurrentSize (buffer_ st).
Proof.
  intros st.
  assert (Slice_size (pattern 2000) < SIZE_MOD) as Hlen
    by (vm_compute; reflexivity).
  assert (0 <= 100 < SIZE_MOD) as Hn by (unfold SIZE_MOD; lia).
  assert (0 <= 10 < SIZE_MOD) as Hn' by (unfold SIZE_MOD; lia).
  assert (read_offset_
            (snd (Read 100 []
                    (make (MemFile.mk (pattern 2000) 0 512 false
                                      [OK; IOError 2]) 1000)))
          + 200 < SIZE_MOD) as Hfit by (vm_compute; reflexivity).
  assert (is_power_of_two 512) as Hpow
    by (exists 9; split; [lia | reflexivity]).
  assert (AlignedBuffer.CurrentSize (buffer_ st) = 1024) as Hcur
    by (vm_compute; reflexivity).
  destruct (buffer_within_capacity (pattern 2000) 512 false [OK; IOError 2]
              1000 st ltac:(lia) Hlen
              (Reachable_Read _ 10 [] _
                 (Reachable_Skip _ 200 _
                    (Reachable_Read _ 100 [] _ (Reachable_init _) Hn)
                    ltac:(lia) Hfit)
                 Hn')) as (Hrange & Hcap & Heq & Hbuf).
  split; [exact Hcur |].
  split; [exact Hrange |].
  split; [exact Hcap |].
  split; [exact (Heq Hpow) |].
  apply Hbuf. rewrite Hcur. reflexivity.
Defined.

End BufferBound.

(** ** Invalidation over a source held in memory *)

Section Invalidation.
Import ReadaheadSequentialFile Run.

#[local] Arguments wadd : simpl never.
#[local] Arguments wsub : simpl never.
#[local] Arguments sub : simpl never.
#[local] Arguments Roundup : simpl never.
#[local] Arguments Z.min : simpl never.
#[local] Arguments Z.max : simpl never.
#[local] Arguments SIZE_MOD : simpl never.

Lemma Read_after_invalidate (content : list byte) (st : t MemFile.t)
  (offset length n : Z) (result : Slice) :
  Inv content st ->
  MemFile.faults (file_ st) = [] ->
  0 <= n -> n + alignment_ st < SIZE_MOD ->
  let pos := MemFile.position (file_ st) in
  let '(s, res, _, _) :=
    Read n result (snd (InvalidateCache offset length st)) in
  s = OK /\
  res = sub pos (Z.min n (Slice_size content - pos)) content.
Proof.
  intros HInv Hnf Hn Hfit pos.
  destruct st as [f a ra [ba cap cur data] bo ro].
  destruct HInv as [Hc Hlen Hpos Hro Hbo Hcur Hbuf Hsync Heof Ha Hcap].
  cbn in *. fold pos in Hpos, Hbuf, Hsync, Heof.
  set (len := Slice_size content) in *.
  assert (0 <= MemFile.position f <= Slice_size (MemFile.contents f))
    as Hpos' by (rewrite Hc; exact Hpos).
  assert (ro <= pos \/ pos = len) as Hat.
  { destruct (Z.lt_ge_cases 0 cur) as [Hfull | Hempty].
    - destruct (Hbuf Hfull) as (_ & _ & Hrange & _). lia.
    - destruct (Hsync ltac:(lia)); lia. }
  rewrite Read_unfold.
  rewrite TryReadFromCache_miss.
  2:{ cbn. rewrite wadd_0_r by lia. lia. }
  cbn [andb]. rewrite wsub_small by lia. replace (n - 0) with n by lia.
  unfold Read_tail, ReadIntoBuffer. cbn.
  rewrite (wadd_small n a) by lia.
  destruct (Z.leb_spec ra (n + a)) as [Hby | Hfill].
  - destruct (MemFile_Read_outcome n result f Hpos' Hn)
      as (s & res & f' & Heq & _ & Hfaults & Hcase).
    rewrite Heq. unfold MemFile.remaining in Hcase.
    rewrite Hc in Hcase. fold pos len in Hcase.
    destruct (Hfaults Hnf) as [-> _].
    destruct Hcase as [(_ & -> & _) | (Hs & _)]; [| discriminate Hs].
    cbn. split; reflexivity.
  - destruct (Z.ltb_spec cap ra) as [Hsmall | _]; [lia |].
    destruct (MemFile_Read_outcome ra [] f Hpos' ltac:(lia))
      as (s & res & f' & Heq & _ & Hfaults & Hcase).
    rewrite Heq. unfold MemFile.remaining in Hcase.
    rewrite Hc in Hcase. fold pos len in Hcase.
    destruct (Hfaults Hnf) as [-> _].
    destruct Hcase as [(_ & -> & _) | (Hs & _)]; [| discriminate Hs].
    cbn. rewrite Slice_size_sub by lia.
    set (k := Z.min ra (len - pos)) in *.
    destruct (Z.eq_dec k 0) as [Hk0 | Hk0].
    + rewrite TryReadFromCache_miss
        by (right; cbn; rewrite Hk0, wadd_0_r by lia; lia).
      cbn. split; [reflexivity |]. rewrite sub_nil by lia. reflexivity.
    + rewrite TryReadFromCache_hit by (cbn; lia).
      cbn. split; [reflexivity |].
      replace (ro + k - ro) with k by lia.
      replace (ro - ro) with 0 by lia.
      rewrite sub_sub by lia.
      f_equal; lia.
Qed.

(** X16: invalidating the cache drops the bytes that were buffered but
    not yet delivered.  Over a healthy source, in every state the decorator
    reaches, [InvalidateCache] succeeds and the read that follows returns
    the bytes of the source from the position of the wrapped file on,
    which lies at or after the place the reads had come to; the bytes in
    between are not delivered. *)
Theorem invalidate_drops_buffered_bytes (content : list byte)
  (alignment : Z) (direct : bool) (readahead_size : Z)
  (st : t MemFile.t) (offset length n : Z) (result : Slice) :
  0 < alignment ->
  Slice_size content < SIZE_MOD ->
  Reachable (make (MemFile.healthy content alignment direct) readahead_size)
            st ->
  0 <= n -> n + alignment < SIZE_MOD ->
  let pos := MemFile.position (file_ st) in
  let '(s0, st0) := InvalidateCache offset length st in
  let '(s, res, _, _) := Read n result st0 in
  s0 = OK /\ s = OK /\
  cursor st <= pos /\
  res = bytes_between pos (Z.min (pos + n) (Slice_size content)) content.
Proof.
  intros Ha Hlen Hreach Hn Hfit pos.
  destruct (Reachable_Inv content alignment direct [] readahead_size st
              Ha Hlen Hreach) as (HInv & Hal & Hnf).
  specialize (Hnf eq_refl).
  pose proof (Read_after_invalidate content st offset length n result
                HInv Hnf Hn ltac:(rewrite Hal; exact Hfit)) as Hread.
  cbv zeta in Hread. fold pos in Hread.
  assert (cursor st <= pos) as Hbehind.
  { destruct HInv as [_ _ _ _ _ _ Hbuf _ _ _ _].
    unfold cursor, pos.
    destruct (Z.ltb_spec 0 (AlignedBuffer.CurrentSize (buffer_ st)))
      as [Hfull | Hempty]; [| lia].
    destruct (Hbuf Hfull) as (_ & _ & Hrange & _). lia. }
  assert (fst (InvalidateCache offset length st) = OK) as Hs0
    by reflexivity.
  destruct (InvalidateCache offset length st) as [s0 st0].
  cbn [fst snd] in *. subst s0.
  destruct (Read n result st0) as [[[s res] calls] st1].
  destruct Hread as (-> & ->).
  repeat split; try assumption.
  unfold bytes_between. f_equal. lia.
Qed.

Lemma invalidate_drops_buffered_bytes_witness :
  let content := pattern 2000 in
  let st :=
    snd (Read 100 [] (make (MemFile.healthy content 512 false) 1000)) in
  let pos := MemFile.position (file_ st) in
  let '(s0, st0) := InvalidateCache 0 0 st in
  let '(s, res, _, _) := Read 10 [] st0 in
  s0 = OK /\ s = OK /\
  cursor st <= pos /\
  res = bytes_between pos (Z.min (pos + 10) (Slice_size content)) content.
Proof.
  intros content st.
  assert (Slice_size content < SIZE_MOD) as Hlen
    by (vm_compute; reflexivity).
  assert (0 <= 100 < SIZE_MOD) as Hn by (unfold SIZE_MOD; lia).
  assert (10 + 512 < SIZE_MOD) as Hfit by (unfold SIZE_MOD; lia).
  exact (invalidate_drops_buffered_bytes content 512 false 1000 st 0 0 10 []
           ltac:(lia) Hlen
           (Reachable_Read _ 100 [] _ (Reachable_init _) Hn)
           ltac:(lia) Hfit).
Defined.

End Invalidation.
